(** * Calculator: tokenizer, shunting-yard parser and RPN evaluator

    A shallow embedding of the [Calculator] class of [src/main.cpp]
    (lines 19-244) and the properties of its three stages:
    [tokenize], [shuntingYard] and [solveRPN], composed by [evaluate].

    Conventions of the embedding.
    - [std::string] is [string]; [char] is [ascii].
    - [std::vector<Token>] is [list Token]; [push_back t] is [_ ++ [t]]
      and [back()] is the last element.
    - [std::stack<T>] is [list T] with the top at the head.
    - [double] is the primitive binary64 [float]; [+ - * /], unary [-],
      [==] and [std::sqrt] are the IEEE-754 operations of [PrimFloat].
    - [throw std::runtime_error(msg)] is [Throw (runtime_error msg)];
      a C++ function that may throw returns a [result].
    - [std::pow], [std::sin], [std::cos] and [std::tan] come from the C
      mathematical library, which is not part of the repository; they
      are the fields of the class [Libm], a parameter of the evaluator. *)

From Stdlib Require Import String Ascii List ZArith NArith Lia Bool Floats.
From Equations Require Import Equations.
From Stdlib Require Import Permutation.
Import ListNotations.

Open Scope string_scope.
Open Scope list_scope.

(** ** Exceptions and results *)

(** The exception classes that can leave [evaluate], each with the text
    returned by [what()]. *)
Inductive exception : Type :=
| runtime_error (what : string)
| invalid_argument (what : string)
| out_of_range (what : string).

Inductive result (A : Type) : Type :=
| Return (a : A)
| Throw (e : exception).

Arguments Return {A} a.
Arguments Throw {A} e.

Definition bind {A B : Type} (r : result A) (k : A -> result B) : result B :=
  match r with
  | Return a => k a
  | Throw e => Throw e
  end.

Notation "x <- r ;; k" := (bind r (fun x => k))
  (at level 61, r at next level, right associativity).

(** ** Tokens (main.cpp, lines 19-32) *)

Inductive TokenType : Type :=
| Number
| Operator
| Function
| LeftParen
| RightParen.

Record Token : Type := mkToken { type : TokenType; value : string }.

Definition TokenType_eqb (a b : TokenType) : bool :=
  match a, b with
  | Number, Number | Operator, Operator | Function, Function
  | LeftParen, LeftParen | RightParen, RightParen => true
  | _, _ => false
  end.

(** ** Character classes of <cctype> in the default "C" locale

    The program never calls [setlocale].  A [char] outside 0..127 belongs
    to none of the three classes. *)

Definition in_range (lo hi : N) (c : ascii) : bool :=
  (lo <=? N_of_ascii c)%N && (N_of_ascii c <=? hi)%N.

(** space, and the controls \t \n \v \f \r (codes 9 to 13) *)
Definition isspace (c : ascii) : bool :=
  (N_of_ascii c =? 32)%N || in_range 9 13 c.

Definition isdigit (c : ascii) : bool := in_range 48 57 c.

Definition isalpha (c : ascii) : bool :=
  in_range 65 90 c || in_range 97 122 c.

(** ** Operator table (main.cpp, lines 45-56) *)

Definition getPrecedence (op : string) : Z :=
  if (op =? "+") || (op =? "-") then 1
  else if (op =? "*") || (op =? "/") || (op =? "%") then 2
  else if op =? "^" then 3
  else 0.

Definition isRightAssociative (op : string) : bool := op =? "^".

(** ** Tokenizer (main.cpp, lines 58-116) *)

(** The two inner [while] loops collect the maximal run of characters
    satisfying a predicate, starting at the current index: [take_run]
    is the text collected, [drop_run] what is left of the input. *)
Fixpoint take_run (p : ascii -> bool) (s : string) : string :=
  match s with
  | String c rest => if p c then String c (take_run p rest) else EmptyString
  | EmptyString => EmptyString
  end.

Fixpoint drop_run (p : ascii -> bool) (s : string) : string :=
  match s with
  | String c rest => if p c then drop_run p rest else s
  | EmptyString => EmptyString
  end.

Definition isnumchar (c : ascii) : bool := isdigit c || (c =? ".")%char.

(** [tokens.back()], when there is one. *)
Definition back (tokens : list Token) : option Token :=
  match rev tokens with
  | t :: _ => Some t
  | [] => None
  end.

(** The test of lines 99-100: no token yet, or the last one is a left
    parenthesis or an operator. *)
Definition unary_position (tokens : list Token) : bool :=
  match back tokens with
  | None => true
  | Some t => TokenType_eqb (type t) LeftParen || TokenType_eqb (type t) Operator
  end.

(** The [for] loop of line 61, on the part of [expr] from index [i] on.
    In the number and word cases the character [c] at [i] satisfies the
    loop test of the inner [while], so the run is [c] followed by the
    run found after it. *)
Equations tokenize_from (expr : string) (tokens : list Token) : list Token
  by wf (String.length expr) lt :=
tokenize_from EmptyString tokens := tokens;
tokenize_from (String c rest) tokens :=
  if isspace c then tokenize_from rest tokens
  else if isdigit c || (c =? ".")%char then
    let numStr := String c (take_run isnumchar rest) in
    tokenize_from (drop_run isnumchar rest) (tokens ++ [mkToken Number numStr])
  else if isalpha c then
    let func := String c (take_run isalpha rest) in
    tokenize_from (drop_run isalpha rest) (tokens ++ [mkToken Function func])
  else if (c =? "(")%char then
    tokenize_from rest (tokens ++ [mkToken LeftParen "("])
  else if (c =? ")")%char then
    tokenize_from rest (tokens ++ [mkToken RightParen ")"])
  else if (c =? "-")%char then
    if unary_position tokens then
      tokenize_from rest (tokens ++ [mkToken Function "_"])
    else
      tokenize_from rest (tokens ++ [mkToken Operator "-"])
  else
    tokenize_from rest (tokens ++ [mkToken Operator (String c EmptyString)]).
Next Obligation.
  clear tokenize_from. apply Nat.lt_succ_r.
  induction rest as [|d rest IH]; simpl; [lia|].
  destruct (isnumchar d); simpl; lia.
Qed.
Next Obligation.
  clear tokenize_from. apply Nat.lt_succ_r.
  induction rest as [|d rest IH]; simpl; [lia|].
  destruct (isalpha d); simpl; lia.
Qed.

Definition tokenize (expr : string) : list Token := tokenize_from expr [].


(** ** Parser: shunting-yard (main.cpp, lines 118-183)

    The parser state is the pair of the operator stack and the output
    vector. *)

Definition mismatched : exception := runtime_error "Mismatched parentheses".

(** The [while] loop of lines 135-149, run for the operator [token]. *)
Fixpoint pop_operators (token : Token) (operators output : list Token)
  : list Token * list Token :=
  match operators with
  | [] => (operators, output)
  | top :: below =>
    if TokenType_eqb (type top) LeftParen then (operators, output)
    else if TokenType_eqb (type top) Function
            || (negb (isRightAssociative (value token))
                && (getPrecedence (value token) <=? getPrecedence (value top))%Z)
            || (isRightAssociative (value token)
                && (getPrecedence (value token) <? getPrecedence (value top))%Z)
    then pop_operators token below (output ++ [top])
    else (operators, output)
  end.

(** The [while] loop of lines 158-162. *)
Fixpoint pop_until_LeftParen (operators output : list Token)
  : list Token * list Token :=
  match operators with
  | [] => (operators, output)
  | top :: below =>
    if TokenType_eqb (type top) LeftParen then (operators, output)
    else pop_until_LeftParen below (output ++ [top])
  end.

(** Lines 156-171: the right-parenthesis case. *)
Definition close_paren (operators output : list Token)
  : result (list Token * list Token) :=
  let '(operators, output) := pop_until_LeftParen operators output in
  match operators with
  | [] => Throw mismatched
  | _ :: operators =>
    match operators with
    | top :: below =>
      if TokenType_eqb (type top) Function
      then Return (below, output ++ [top])
      else Return (operators, output)
    | [] => Return (operators, output)
    end
  end.

(** The body of the [for] loop of line 123. *)
Definition shuntingYard_step (token : Token) (operators output : list Token)
  : result (list Token * list Token) :=
  match type token with
  | Number => Return (operators, output ++ [token])
  | Function => Return (token :: operators, output)
  | Operator =>
    let '(operators, output) := pop_operators token operators output in
    Return (token :: operators, output)
  | LeftParen => Return (token :: operators, output)
  | RightParen => close_paren operators output
  end.

(** The final [while] loop of lines 174-180. *)
Fixpoint flush_operators (operators output : list Token) : result (list Token) :=
  match operators with
  | [] => Return output
  | top :: below =>
    if TokenType_eqb (type top) LeftParen then Throw mismatched
    else flush_operators below (output ++ [top])
  end.

Fixpoint shuntingYard_loop (tokens operators output : list Token)
  : result (list Token) :=
  match tokens with
  | [] => flush_operators operators output
  | token :: tokens' =>
    match shuntingYard_step token operators output with
    | Return (operators', output') => shuntingYard_loop tokens' operators' output'
    | Throw e => Throw e
    end
  end.

Definition shuntingYard (tokens : list Token) : result (list Token) :=
  shuntingYard_loop tokens [] [].

(** ** [std::stod] on the text of a number token

    [std::stod] belongs to the C++ standard library.  On a text made of
    digits and dots, which is all the tokenizer puts in a [Number] token,
    it converts the longest prefix of the form digits, optional dot,
    digits, with at least one digit; it throws [std::invalid_argument]
    when there is no such prefix and [std::out_of_range] when [strtod]
    reports [ERANGE].  The value is the decimal number rounded to the
    nearest binary64, ties to even.  On a text with other characters
    (white space, a sign, an exponent) the definition below is not a
    model of [std::stod]; no such text reaches it from [tokenize]. *)

Fixpoint digits_value (s : string) (acc : N) : N :=
  match s with
  | String c rest => digits_value rest (10 * acc + (N_of_ascii c - 48))%N
  | EmptyString => acc
  end.

Definition pow10 (k : nat) : positive := Nat.iter k (Pos.mul 10) 1%positive.

(** [m / scale] correctly rounded. *)
Definition strtod_round (m scale : positive) : spec_float :=
  SFdiv prec emax (S754_finite false m 0) (S754_finite false scale 0).

(** [m / scale] is tiny: rounded to 53 bits with an exponent range wide
    enough to keep it normal, it is below the smallest normal binary64
    (tininess is detected after rounding, as the C library of x86-64
    does). *)
Definition strtod_tiny (m scale : positive) : bool :=
  match SFdiv prec 4096 (S754_finite false m 0) (S754_finite false scale 0) with
  | S754_finite _ mant e => (Z.pos (digits2_pos mant) + e <? emin + prec)%Z
  | S754_zero _ => true
  | _ => false
  end.

(** [ERANGE]: the value overflows, or it is tiny and the result [sf] does
    not represent it exactly. *)
Definition strtod_erange (m scale : positive) (sf : spec_float) : bool :=
  match sf with
  | S754_finite _ mant e =>
    strtod_tiny m scale
    && negb (Z.pos m * 2 ^ (- e) =? Z.pos mant * Z.pos scale)%Z
  | _ => true
  end.

Definition stod (str : string) : result float :=
  let int_part := take_run isdigit str in
  let frac_part :=
    match drop_run isdigit str with
    | String "." rest => take_run isdigit rest
    | _ => EmptyString
    end in
  if (String.length int_part + String.length frac_part =? 0)%nat
  then Throw (invalid_argument "stod")
  else
    match digits_value (int_part ++ frac_part)%string 0 with
    | N0 => Return 0%float
    | Npos m =>
      let scale := pow10 (String.length frac_part) in
      let sf := strtod_round m scale in
      if strtod_erange m scale sf then Throw (out_of_range "stod")
      else Return (SF2Prim sf)
    end.

(** ** Evaluator (main.cpp, lines 185-243) *)

(** The functions of <cmath> that the evaluator calls and that have no
    counterpart among the primitive operations. *)
Class Libm : Type := {
  pow : float -> float -> float;
  sin : float -> float;
  cos : float -> float;
  tan : float -> float
}.

Section Evaluator.

Context {libm : Libm}.

(** Lines 204-217, with [b] and [a] already popped. *)
Definition apply_operator (op : string) (a b : float) (stack : list float)
  : result (list float) :=
  if op =? "+" then Return ((a + b)%float :: stack)
  else if op =? "-" then Return ((a - b)%float :: stack)
  else if op =? "*" then Return ((a * b)%float :: stack)
  else if op =? "/" then
    if (b =? 0)%float then Throw (runtime_error "Division by zero")
    else Return ((a / b)%float :: stack)
  else if op =? "^" then Return (pow a b :: stack)
  else Return stack.

(** Lines 225-236, with [a] already popped. *)
Definition apply_function (name : string) (a : float) (stack : list float)
  : result (list float) :=
  if name =? "_" then Return ((- a)%float :: stack)
  else if name =? "sin" then Return (sin a :: stack)
  else if name =? "cos" then Return (cos a :: stack)
  else if name =? "tan" then Return (tan a :: stack)
  else if name =? "sqrt" then Return (PrimFloat.sqrt a :: stack)
  else Throw (runtime_error ("Unknown function: " ++ name)%string).

(** The body of the [for] loop of line 189.  A parenthesis token matches
    none of the three tests and leaves the stack as it is. *)
Definition solveRPN_step (token : Token) (stack : list float)
  : result (list float) :=
  match type token with
  | Number => v <- stod (value token) ;; Return (v :: stack)
  | Operator =>
    if (List.length stack <? 2)%nat then Throw (runtime_error "Invalid expression")
    else
      match stack with
      | b :: a :: stack' => apply_operator (value token) a b stack'
      | _ => Throw (runtime_error "Invalid expression")
      end
  | Function =>
    match stack with
    | [] => Throw (runtime_error "Invalid function call")
    | a :: stack' => apply_function (value token) a stack'
    end
  | LeftParen | RightParen => Return stack
  end.

(** The loop, then the test of lines 240-242. *)
Fixpoint solveRPN_loop (rpn : list Token) (stack : list float) : result float :=
  match rpn with
  | [] =>
    if negb (List.length stack =? 1)%nat then Throw (runtime_error "Invalid expression")
    else
      match stack with
      | top :: _ => Return top
      | [] => Throw (runtime_error "Invalid expression")
      end
  | token :: rpn' =>
    match solveRPN_step token stack with
    | Return stack' => solveRPN_loop rpn' stack'
    | Throw e => Throw e
    end
  end.

Definition solveRPN (rpn : list Token) : result float := solveRPN_loop rpn [].

(** Lines 37-42. *)
Definition evaluate (expression : string) : result float :=
  rpn <- shuntingYard (tokenize expression) ;; solveRPN rpn.

End Evaluator.

(** ** Balanced parentheses

    The property the parser's error is compared with: read from left to
    right, no right parenthesis comes before its left one, and none is
    left open.  [paren_depth tokens depth] is the number of parentheses
    open after [tokens], starting with [depth] open. *)
Fixpoint paren_depth (tokens : list Token) (depth : nat) : option nat :=
  match tokens with
  | [] => Some depth
  | token :: tokens' =>
    match type token, depth with
    | LeftParen, _ => paren_depth tokens' (S depth)
    | RightParen, O => None
    | RightParen, S depth' => paren_depth tokens' depth'
    | _, _ => paren_depth tokens' depth
    end
  end.

Definition balanced (tokens : list Token) : bool :=
  match paren_depth tokens 0 with
  | Some O => true
  | _ => false
  end.

(** The left parentheses on the operator stack. *)
Fixpoint open_parens (operators : list Token) : nat :=
  match operators with
  | [] => 0
  | top :: below =>
    if TokenType_eqb (type top) LeftParen then S (open_parens below)
    else open_parens below
  end.

(** ** The exceptions of [evaluate]

    The five [throw] statements of the class and the two exceptions of
    [std::stod]. *)
Definition evaluate_exception (e : exception) : Prop :=
  e = runtime_error "Mismatched parentheses"
  \/ e = runtime_error "Invalid expression"
  \/ e = runtime_error "Division by zero"
  \/ e = runtime_error "Invalid function call"
  \/ (exists name, e = runtime_error ("Unknown function: " ++ name)%string)
  \/ e = invalid_argument "stod"
  \/ e = out_of_range "stod".

(** ** A small instance of [Libm]

    Enough of a mathematical library to run the evaluator on examples:
    [exact_pow a b] is [a] multiplied [b] times when [b] is a natural
    number below 64, and the three trigonometric functions know their
    value at zero.  Elsewhere they answer [nan]. *)
Definition small_nat_of_float (x : float) : option nat :=
  find (fun n => (of_uint63 (Uint63.of_Z (Z.of_nat n)) =? x)%float) (seq 0 64).

Definition exact_pow (a b : float) : float :=
  match small_nat_of_float b with
  | Some n => Nat.iter n (fun r => (r * a)%float) 1%float
  | None => nan
  end.

Definition at_zero (v x : float) : float :=
  if (x =? 0)%float then v else nan.

Definition small_libm : Libm :=
  {| pow := exact_pow; sin := at_zero 0; cos := at_zero 1; tan := at_zero 0 |}.

(** Token constructors, as in the braced initialisers of the source. *)
Definition num (text : string) : Token := mkToken Number text.
Definition op (text : string) : Token := mkToken Operator text.
Definition fn (text : string) : Token := mkToken Function text.

(** The test of lines 138-140 on the values of the incoming operator and
    of the operator on top of the stack. *)
Definition yields_to (incoming top : string) : bool :=
  (negb (isRightAssociative incoming)
   && (getPrecedence incoming <=? getPrecedence top)%Z)
  || (isRightAssociative incoming
      && (getPrecedence incoming <? getPrecedence top)%Z).

(** Every character of [s] satisfies [p]. *)
Fixpoint all_chars (p : ascii -> bool) (s : string) : bool :=
  match s with
  | String c rest => p c && all_chars p rest
  | EmptyString => true
  end.

(** [s] is empty or starts with a character that does not satisfy [p]. *)
Definition stops (p : ascii -> bool) (s : string) : bool :=
  match s with
  | String c _ => negb (p c)
  | EmptyString => true
  end.

(** ** Well-formed tokens

    What the tokenizer puts in a token of each kind.  [std::stod] is
    only called on the text of a [Number] token, a nonempty run of
    digits and dots. *)
Definition token_ok (t : Token) : Prop :=
  match type t with
  | Number => value t <> EmptyString /\ all_chars isnumchar (value t) = true
  | Function =>
    value t = "_"
    \/ (value t <> EmptyString /\ all_chars isalpha (value t) = true)
  | Operator => exists c, value t = String c EmptyString
  | LeftParen => value t = "("
  | RightParen => value t = ")"
  end.

(** ** Kinds of characters and of tokens

    The vocabulary of the properties of the tokenizer and of the
    parser. *)

(** A character that is neither part of a number nor of a word. *)
Definition delimiter (c : ascii) : bool := negb (isnumchar c || isalpha c).

(** A character the tokenizer turns into an operator token. *)
Definition operator_char (c : ascii) : bool :=
  negb (isspace c || isnumchar c || isalpha c
        || (c =? "(")%char || (c =? ")")%char).

(** [s] is empty or starts with a delimiter. *)
Definition starts_delimited (s : string) : bool :=
  match s with
  | String c _ => delimiter c
  | EmptyString => true
  end.

(** The text the tokenizer gives a token of each kind. *)
Definition token_shape (t : Token) : Prop :=
  match type t with
  | Number => value t <> EmptyString /\ all_chars isnumchar (value t) = true
  | Function =>
    value t = "_"
    \/ (value t <> EmptyString /\ all_chars isalpha (value t) = true)
  | Operator => exists c, value t = String c EmptyString /\ operator_char c = true
  | LeftParen => value t = "("
  | RightParen => value t = ")"
  end.

Definition is_paren (t : Token) : bool :=
  TokenType_eqb (type t) LeftParen || TokenType_eqb (type t) RightParen.

Definition not_LeftParen (t : Token) : bool :=
  negb (TokenType_eqb (type t) LeftParen).

Definition not_paren (t : Token) : bool := negb (is_paren t).

Definition is_Number (t : Token) : bool := TokenType_eqb (type t) Number.

(** The output followed by the operator stack without its left
    parentheses: what the two popping loops leave unchanged. *)
Definition pending (operators output : list Token) : list Token :=
  output ++ filter not_LeftParen operators.

(** No number waits on the operator stack. *)
Definition no_Number (operators : list Token) : Prop :=
  Forall (fun t => is_Number t = false) operators.

(** ** Parentheses, character by character

    [char_depth s depth] is the number of parentheses open after the
    text [s], starting with [depth] open; [None] when one is closed
    that was not open. *)

Fixpoint char_depth (s : string) (depth : nat) : option nat :=
  match s with
  | EmptyString => Some depth
  | String c rest =>
    if (c =? "(")%char then char_depth rest (S depth)
    else if (c =? ")")%char then
      match depth with
      | O => None
      | S depth' => char_depth rest depth'
      end
    else char_depth rest depth
  end.

Definition parens_balanced (s : string) : bool :=
  match char_depth s 0 with
  | Some O => true
  | _ => false
  end.

(** ** Expression trees

    The trees the parser is compared with.  [Paren] is a pair of
    parentheses of the text, [Prefix] a function name or the unary
    minus (the name ["_"]) before its argument, [Bin] a binary operator
    between its operands. *)

Inductive expr : Type :=
| Num (text : string)
| Paren (e : expr)
| Prefix (f : string) (e : expr)
| Bin (o : string) (a b : expr).

Definition lparen : Token := mkToken LeftParen "(".
Definition rparen : Token := mkToken RightParen ")".

(** The tokens of a tree, in the order of the text. *)
Fixpoint tokens_of (e : expr) : list Token :=
  match e with
  | Num text => [num text]
  | Paren e => lparen :: tokens_of e ++ [rparen]
  | Prefix f e => fn f :: tokens_of e
  | Bin o a b => tokens_of a ++ op o :: tokens_of b
  end.

(** The tokens of a tree, operands first. *)
Fixpoint postfix (e : expr) : list Token :=
  match e with
  | Num text => [num text]
  | Paren e => postfix e
  | Prefix f e => postfix e ++ [fn f]
  | Bin o a b => postfix a ++ postfix b ++ [op o]
  end.

Definition is_Bin (e : expr) : bool :=
  match e with
  | Bin _ _ _ => true
  | _ => false
  end.

(** The grouping the precedences give: an operator [o] takes a binary
    expression as its left operand when [o] yields to its operator, and
    as its right operand when its operator does not yield to [o];
    elsewhere the text needs parentheses.  A function takes the operand
    that follows it, never a binary expression. *)
Definition left_ok (o : string) (a : expr) : bool :=
  match a with
  | Bin o1 _ _ => yields_to o o1
  | _ => true
  end.

Definition right_ok (o : string) (b : expr) : bool :=
  match b with
  | Bin o3 _ _ => negb (yields_to o3 o)
  | _ => true
  end.

Fixpoint grouped (e : expr) : bool :=
  match e with
  | Num _ => true
  | Paren e => grouped e
  | Prefix _ e => negb (is_Bin e) && grouped e
  | Bin o a b => grouped a && grouped b && left_ok o a && right_ok o b
  end.

(** The operators met on the way down the left operands. *)
Fixpoint left_spine (e : expr) : list string :=
  match e with
  | Bin o a _ => o :: left_spine a
  | _ => []
  end.

(** No operator of the left spine of [e] yields to [o]. *)
Definition guards (o : string) (e : expr) : bool :=
  forallb (fun x => negb (yields_to x o)) (left_spine e).

(** What reading [e] leaves on the operator stack, above the functions
    [fs] that wait for their argument, and what it appends to the
    output. *)
Fixpoint run (e : expr) (fs : list Token) : list Token * list Token :=
  match e with
  | Num text => (fs, [num text])
  | Paren e => (tl fs, postfix e ++ firstn 1 fs)
  | Prefix f e => run e (fn f :: fs)
  | Bin o a b => (fst (run b []) ++ [op o], postfix a ++ snd (run b []))
  end.

Definition is_fn (t : Token) : bool := TokenType_eqb (type t) Function.

(** A token the loop of lines 135-149 moves to the output when the
    operator [o] comes in. *)
Definition poppable (o : string) (t : Token) : bool :=
  is_fn t || (TokenType_eqb (type t) Operator && yields_to o (value t)).

(** A stack on which that loop stops at once. *)
Definition stops_at (o : string) (operators : list Token) : bool :=
  match operators with
  | [] => true
  | top :: _ =>
    TokenType_eqb (type top) LeftParen
    || (TokenType_eqb (type top) Operator && negb (yields_to o (value top)))
  end.

(** A stack no operator of [e] reaches into. *)
Definition barrier (operators : list Token) (e : expr) : bool :=
  match operators with
  | [] => true
  | top :: _ =>
    TokenType_eqb (type top) LeftParen
    || (TokenType_eqb (type top) Operator && guards (value top) e)
  end.

(** The operators the evaluator has a rule for. *)
Definition supported_op (o : string) : bool :=
  (o =? "+") || (o =? "-") || (o =? "*") || (o =? "/") || (o =? "^").

Fixpoint supported (e : expr) : bool :=
  match e with
  | Num _ => true
  | Paren e => supported e
  | Prefix _ e => supported e
  | Bin o a b => supported_op o && supported a && supported b
  end.

(** The value of a tree: operands from left to right, then the
    operation. *)
Section Reference.

Context {libm : Libm}.

Definition binary (o : string) (x y : float) : result float :=
  if o =? "+" then Return (x + y)%float
  else if o =? "-" then Return (x - y)%float
  else if o =? "*" then Return (x * y)%float
  else if o =? "/" then
    if (y =? 0)%float then Throw (runtime_error "Division by zero")
    else Return (x / y)%float
  else if o =? "^" then Return (pow x y)
  else Throw (runtime_error "Invalid expression").

Definition unary (f : string) (x : float) : result float :=
  if f =? "_" then Return (- x)%float
  else if f =? "sin" then Return (sin x)
  else if f =? "cos" then Return (cos x)
  else if f =? "tan" then Return (tan x)
  else if f =? "sqrt" then Return (PrimFloat.sqrt x)
  else Throw (runtime_error ("Unknown function: " ++ f)%string).

Fixpoint eval (e : expr) : result float :=
  match e with
  | Num text => stod text
  | Paren e => eval e
  | Prefix f e => x <- eval e ;; unary f x
  | Bin o a b => x <- eval a ;; y <- eval b ;; binary o x y
  end.

End Reference.

(** The text of a tree.  A function name is followed by a space, the
    unary minus is written ['-']. *)
Fixpoint show (e : expr) : string :=
  match e with
  | Num text => text
  | Paren e => "(" ++ show e ++ ")"
  | Prefix f e => if f =? "_" then "-" ++ show e else f ++ " " ++ show e
  | Bin o a b => show a ++ o ++ show b
  end.

(** The text of [e] starts with a ['-']. *)
Fixpoint starts_minus (e : expr) : bool :=
  match e with
  | Prefix f _ => f =? "_"
  | Bin _ a _ => starts_minus a
  | _ => false
  end.

Definition function_name (f : string) : bool :=
  negb (f =? "") && all_chars isalpha f.

(** The names of a tree are texts the tokenizer reads back: numbers are
    runs of digits and dots, function names runs of letters, operators
    are supported, and no unary minus follows a function name or
    another unary minus. *)
Fixpoint lexical (e : expr) : bool :=
  match e with
  | Num text => negb (text =? "") && all_chars isnumchar text
  | Paren e => lexical e
  | Prefix f e =>
    ((f =? "_") || function_name f) && negb (starts_minus e) && lexical e
  | Bin o a b => supported_op o && lexical a && lexical b
  end.

(** The text 2+3*-(4.5-sqrt 16), as a tree. *)
Definition sample : expr :=
  Bin "+" (Num "2")
    (Bin "*" (Num "3")
       (Prefix "_" (Paren (Bin "-" (Num "4.5") (Prefix "sqrt" (Num "16")))))).

(** * Properties *)

(** ** The tokenizer *)

Lemma back_nil : back [] = None.
Proof. reflexivity. Qed.

Lemma back_push (tokens : list Token) (t : Token) : back (tokens ++ [t]) = Some t.
Proof. unfold back. rewrite rev_app_distr. reflexivity. Qed.

Lemma TokenType_eqb_eq (a b : TokenType) : TokenType_eqb a b = true <-> a = b.
Proof. destruct a, b; simpl; split; intro H; congruence. Qed.

Lemma unary_position_iff (tokens : list Token) :
  unary_position tokens = true <->
  (back tokens = None
   \/ exists t, back tokens = Some t /\ (type t = LeftParen \/ type t = Operator)).
Proof.
  unfold unary_position. destruct (back tokens) as [t|].
  - rewrite orb_true_iff, !TokenType_eqb_eq. split.
    + intro H. right. exists t. split; [reflexivity | exact H].
    + intros [H | [t' [H1 H2]]]; [discriminate | congruence].
  - split; [intros _; left; reflexivity | reflexivity].
Qed.

(** A letter is neither white space, nor a digit, nor a dot. *)
Lemma isalpha_class (c : ascii) :
  isalpha c = true -> isspace c = false /\ isdigit c || (c =? ".")%char = false.
Proof.
  destruct c as [[] [] [] [] [] [] [] []]; intro H;
    solve [discriminate H | split; reflexivity].
Qed.

Lemma take_run_word (p : ascii -> bool) (word rest : string) :
  all_chars p word = true -> stops p rest = true ->
  take_run p (word ++ rest)%string = word.
Proof.
  intros Hw Hr. induction word as [|c word IH]; simpl in *.
  - destruct rest as [|d rest]; simpl in *; [reflexivity|].
    apply negb_true_iff in Hr. rewrite Hr. reflexivity.
  - apply andb_true_iff in Hw as [Hc Hw]. rewrite Hc, (IH Hw). reflexivity.
Qed.

Lemma drop_run_word (p : ascii -> bool) (word rest : string) :
  all_chars p word = true -> stops p rest = true ->
  drop_run p (word ++ rest)%string = rest.
Proof.
  intros Hw Hr. induction word as [|c word IH]; simpl in *.
  - destruct rest as [|d rest]; simpl in *; [reflexivity|].
    apply negb_true_iff in Hr. rewrite Hr. reflexivity.
  - apply andb_true_iff in Hw as [Hc Hw]. rewrite Hc. exact (IH Hw).
Qed.

(** A maximal run of letters becomes one [Function] token. *)
Lemma tokenize_word (word rest : string) (tokens : list Token) :
  word <> EmptyString -> all_chars isalpha word = true ->
  stops isalpha rest = true ->
  tokenize_from (word ++ rest)%string tokens =
  tokenize_from rest (tokens ++ [fn word]).
Proof.
  intros Hne Hw Hr. destruct word as [|c word]; [congruence|].
  simpl in Hw. apply andb_true_iff in Hw as [Hc Hw].
  destruct (isalpha_class c Hc) as [Hs Hn].
  simpl. rewrite tokenize_from_equation_2, Hs, Hn, Hc.
  cbv zeta. rewrite (take_run_word _ _ _ Hw Hr), (drop_run_word _ _ _ Hw Hr).
  reflexivity.
Qed.

(** A word read by the tokenizer starts with a letter, so it is never
    the marker ["_"] of the unary minus. *)
Lemma word_not_marker (c : ascii) (run : string) :
  isalpha c = true -> String c run <> "_".
Proof.
  intros Hc Heq. injection Heq as Hc' _. subst c. discriminate Hc.
Qed.

Lemma all_chars_take_run (p : ascii -> bool) (s : string) :
  all_chars p (take_run p s) = true.
Proof.
  induction s as [|c s IH]; simpl; [reflexivity|].
  destruct (p c) eqn:Hc; simpl; [rewrite Hc; exact IH | reflexivity].
Qed.

(** Every token the tokenizer emits is well formed. *)
Lemma tokenize_from_ok (expr : string) (tokens : list Token) :
  Forall token_ok tokens -> Forall token_ok (tokenize_from expr tokens).
Proof.
  funelim (tokenize_from expr tokens); [intro H; simp tokenize_from|].
  intro Hok. clear Heqcall.
  assert (Hpush : forall t, token_ok t -> Forall token_ok (tokens ++ [t])).
  { intros t Ht. apply Forall_app. split; [exact Hok|].
    constructor; [exact Ht | constructor]. }
  destruct (isspace c); [auto|].
  destruct (isdigit c || (c =? ".")%char) eqn:Hn.
  { apply H0, Hpush. split; [discriminate|]. simpl. unfold isnumchar at 1.
    rewrite Hn. apply all_chars_take_run. }
  destruct (isalpha c) eqn:Ha.
  { apply H1, Hpush. right. split; [discriminate|]. simpl.
    rewrite Ha. apply all_chars_take_run. }
  destruct (c =? "(")%char; [apply H2, Hpush; reflexivity|].
  destruct (c =? ")")%char; [apply H3, Hpush; reflexivity|].
  destruct (c =? "-")%char.
  { destruct (unary_position tokens).
    - apply H4, Hpush. left. reflexivity.
    - apply H5, Hpush. exists "-"%char. reflexivity. }
  apply H6, Hpush. exists c. reflexivity.
Qed.

Lemma tokenize_ok (expr : string) : Forall token_ok (tokenize expr).
Proof. apply tokenize_from_ok. constructor. Qed.

(** ** The parser on two operators in a row *)

(** For [a o1 b o2 c] the first operator is applied first exactly when
    the second one yields to it: it has lower precedence, or the same
    and is left-associative. *)
Lemma shuntingYard_two_operators (a b c o1 o2 : string) :
  shuntingYard [num a; op o1; num b; op o2; num c] =
  Return (if yields_to o2 o1
          then [num a; num b; op o1; num c; op o2]
          else [num a; num b; num c; op o2; op o1]).
Proof.
  unfold shuntingYard, yields_to, isRightAssociative. cbn.
  destruct (_ || _); reflexivity.
Qed.

(** ** Parentheses *)

(** The number of left parentheses on the operator stack is the number
    of parentheses still open; each loop of the parser is described by
    its effect on that number. *)

Lemma pop_operators_open_parens (token : Token) (operators output : list Token) :
  open_parens (fst (pop_operators token operators output)) = open_parens operators.
Proof.
  revert output. induction operators as [|top below IH]; intro output; simpl.
  - reflexivity.
  - destruct (TokenType_eqb (type top) LeftParen) eqn:Hlp; simpl.
    + rewrite Hlp. reflexivity.
    + destruct (_ || _); simpl.
      * apply IH.
      * rewrite Hlp. reflexivity.
Qed.

Lemma pop_until_LeftParen_spec (operators output : list Token) :
  match fst (pop_until_LeftParen operators output) with
  | [] => open_parens operators = 0
  | top :: below =>
    TokenType_eqb (type top) LeftParen = true
    /\ open_parens operators = S (open_parens below)
  end.
Proof.
  revert output. induction operators as [|top below IH]; intro output; simpl.
  - reflexivity.
  - destruct (TokenType_eqb (type top) LeftParen) eqn:Hlp; simpl.
    + split; [exact Hlp | reflexivity].
    + apply IH.
Qed.

Lemma close_paren_spec (operators output : list Token) :
  match close_paren operators output with
  | Throw e => e = mismatched /\ open_parens operators = 0
  | Return (operators', _) => open_parens operators = S (open_parens operators')
  end.
Proof.
  unfold close_paren.
  pose proof (pop_until_LeftParen_spec operators output) as H.
  destruct (pop_until_LeftParen operators output) as [ops out]. simpl in H.
  destruct ops as [|lp ops]; [split; [reflexivity | exact H]|].
  destruct H as [_ H]. destruct ops as [|top below]; [exact H|].
  destruct (TokenType_eqb (type top) Function) eqn:Hf; [|exact H].
  rewrite H. simpl. apply TokenType_eqb_eq in Hf. rewrite Hf. reflexivity.
Qed.

Lemma flush_operators_spec (operators output : list Token) :
  match flush_operators operators output with
  | Throw e => e = mismatched /\ open_parens operators <> 0
  | Return _ => open_parens operators = 0
  end.
Proof.
  revert output. induction operators as [|top below IH]; intro output; simpl.
  - reflexivity.
  - destruct (TokenType_eqb (type top) LeftParen).
    + split; [reflexivity | discriminate].
    + apply IH.
Qed.

Lemma shuntingYard_loop_spec (tokens operators output : list Token) :
  match shuntingYard_loop tokens operators output with
  | Throw e => e = mismatched /\ paren_depth tokens (open_parens operators) <> Some 0
  | Return _ => paren_depth tokens (open_parens operators) = Some 0
  end.
Proof.
  revert operators output.
  induction tokens as [|token tokens IH]; intros operators output; simpl.
  - pose proof (flush_operators_spec operators output) as H.
    destruct (flush_operators operators output) as [rpn|e].
    + congruence.
    + destruct H as [He Hn]. split; [exact He | congruence].
  - unfold shuntingYard_step. destruct (type token) eqn:Ht.
    + apply IH.
    + pose proof (pop_operators_open_parens token operators output) as H.
      destruct (pop_operators token operators output) as [ops out].
      simpl in H. specialize (IH (token :: ops) out). simpl in IH.
      rewrite Ht, H in IH. exact IH.
    + specialize (IH (token :: operators) output). simpl in IH.
      rewrite Ht in IH. exact IH.
    + specialize (IH (token :: operators) output). simpl in IH.
      rewrite Ht in IH. exact IH.
    + pose proof (close_paren_spec operators output) as H.
      destruct (close_paren operators output) as [[ops out]|e].
      * rewrite H. apply IH.
      * destruct H as [He H0]. rewrite H0. split; [exact He | discriminate].
Qed.

(** The parser throws nothing but "Mismatched parentheses". *)
Lemma shuntingYard_throws (tokens : list Token) (e : exception) :
  shuntingYard tokens = Throw e -> e = mismatched.
Proof.
  unfold shuntingYard. intro H.
  pose proof (shuntingYard_loop_spec tokens [] []) as S.
  rewrite H in S. apply S.
Qed.

Lemma shuntingYard_balanced (tokens : list Token) :
  shuntingYard tokens = Throw mismatched <-> balanced tokens = false.
Proof.
  unfold shuntingYard, balanced.
  pose proof (shuntingYard_loop_spec tokens [] []) as S. simpl in S.
  destruct (shuntingYard_loop tokens [] []) as [rpn|e].
  - rewrite S. split; discriminate.
  - destruct S as [-> Hn]. split; [intros _|reflexivity].
    destruct (paren_depth tokens 0) as [[|d]|]; congruence.
Qed.

(** ** The tokens of the postfix sequence

    The parser only moves tokens: a property of all the tokens it is
    given holds of all the tokens it returns. *)

Section Moves.

Variable P : Token -> Prop.

Lemma Forall_push (l : list Token) (t : Token) :
  Forall P l -> P t -> Forall P (l ++ [t]).
Proof.
  intros Hl Ht. apply Forall_app. split; [exact Hl|].
  constructor; [exact Ht | constructor].
Qed.

Lemma pop_operators_Forall (token : Token) (operators output : list Token) :
  Forall P operators -> Forall P output ->
  Forall P (fst (pop_operators token operators output))
  /\ Forall P (snd (pop_operators token operators output)).
Proof.
  revert output.
  induction operators as [|top below IH]; intros output Hops Hout; simpl.
  - split; assumption.
  - inversion Hops as [|? ? Htop Hbelow]; subst.
    destruct (TokenType_eqb (type top) LeftParen); [split; assumption|].
    destruct (_ || _); [|split; assumption].
    apply IH; [exact Hbelow | apply Forall_push; assumption].
Qed.

Lemma pop_until_LeftParen_Forall (operators output : list Token) :
  Forall P operators -> Forall P output ->
  Forall P (fst (pop_until_LeftParen operators output))
  /\ Forall P (snd (pop_until_LeftParen operators output)).
Proof.
  revert output.
  induction operators as [|top below IH]; intros output Hops Hout; simpl.
  - split; assumption.
  - inversion Hops as [|? ? Htop Hbelow]; subst.
    destruct (TokenType_eqb (type top) LeftParen); [split; assumption|].
    apply IH; [exact Hbelow | apply Forall_push; assumption].
Qed.

Lemma shuntingYard_step_Forall
  (token : Token) (operators output operators' output' : list Token) :
  P token -> Forall P operators -> Forall P output ->
  shuntingYard_step token operators output = Return (operators', output') ->
  Forall P operators' /\ Forall P output'.
Proof.
  intros Ht Hops Hout. unfold shuntingYard_step. destruct (type token).
  - intro H. injection H as <- <-. split; [exact Hops | apply Forall_push; assumption].
  - pose proof (pop_operators_Forall token operators output Hops Hout) as [H1 H2].
    destruct (pop_operators token operators output) as [ops out]. simpl in *.
    intro H. injection H as <- <-. split; [constructor; assumption | exact H2].
  - intro H. injection H as <- <-. split; [constructor; assumption | exact Hout].
  - intro H. injection H as <- <-. split; [constructor; assumption | exact Hout].
  - unfold close_paren.
    pose proof (pop_until_LeftParen_Forall operators output Hops Hout) as [H1 H2].
    destruct (pop_until_LeftParen operators output) as [ops out]. simpl in *.
    destruct ops as [|lp ops]; [discriminate|].
    inversion H1 as [|? ? _ Hrest]; subst.
    destruct ops as [|top below].
    + intro H. injection H as <- <-. split; assumption.
    + inversion Hrest as [|? ? Htop Hbelow]; subst.
      destruct (TokenType_eqb (type top) Function); intro H; injection H as <- <-.
      * split; [exact Hbelow | apply Forall_push; assumption].
      * split; assumption.
Qed.

Lemma flush_operators_Forall (operators output rpn : list Token) :
  Forall P operators -> Forall P output ->
  flush_operators operators output = Return rpn -> Forall P rpn.
Proof.
  revert output.
  induction operators as [|top below IH]; intros output Hops Hout; simpl.
  - intro H. injection H as <-. exact Hout.
  - inversion Hops as [|? ? Htop Hbelow]; subst.
    destruct (TokenType_eqb (type top) LeftParen); [discriminate|].
    apply IH; [exact Hbelow | apply Forall_push; assumption].
Qed.

Lemma shuntingYard_loop_Forall (tokens operators output rpn : list Token) :
  Forall P tokens -> Forall P operators -> Forall P output ->
  shuntingYard_loop tokens operators output = Return rpn -> Forall P rpn.
Proof.
  revert operators output.
  induction tokens as [|token tokens IH]; intros operators output Htok Hops Hout;
    simpl.
  - apply flush_operators_Forall; assumption.
  - inversion Htok as [|? ? Ht Htokens]; subst.
    destruct (shuntingYard_step token operators output) as [[ops out]|e] eqn:Hs;
      [|discriminate].
    destruct (shuntingYard_step_Forall _ _ _ _ _ Ht Hops Hout Hs) as [H1 H2].
    apply IH; assumption.
Qed.

End Moves.

(** The evaluator only meets well-formed tokens. *)
Lemma shuntingYard_tokenize_ok (expression : string) (rpn : list Token) :
  shuntingYard (tokenize expression) = Return rpn -> Forall token_ok rpn.
Proof.
  apply shuntingYard_loop_Forall; [apply tokenize_ok | constructor | constructor].
Qed.

(** ** The exceptions of each stage *)

Lemma stod_throws (str : string) (e : exception) :
  stod str = Throw e -> e = invalid_argument "stod" \/ e = out_of_range "stod".
Proof.
  unfold stod. destruct (_ =? 0)%nat; [intro H; left; congruence|].
  destruct (digits_value _ 0) as [|m]; [discriminate|].
  destruct (strtod_erange _ _ _); [intro H; right; congruence | discriminate].
Qed.

(** [std::stod] finds no number exactly when the text has no digit
    before its first dot and none right after it. *)
Lemma stod_invalid_argument (str : string) :
  stod str = Throw (invalid_argument "stod") <->
  (take_run isdigit str = EmptyString
   /\ forall rest, drop_run isdigit str = String "." rest ->
                   take_run isdigit rest = EmptyString).
Proof.
  unfold stod. split.
  - destruct (_ =? 0)%nat eqn:Hlen.
    + intros _. apply Nat.eqb_eq in Hlen.
      destruct (take_run isdigit str); [|simpl in Hlen; lia].
      split; [reflexivity|]. intros rest Hrest. rewrite Hrest in Hlen.
      destruct (take_run isdigit rest); [reflexivity | simpl in Hlen; lia].
    + destruct (digits_value _ 0); [discriminate|].
      destruct (strtod_erange _ _ _); discriminate.
  - intros [Hint Hfrac]. rewrite Hint.
    destruct (drop_run isdigit str) as [|c rest]; [reflexivity|].
    destruct (Ascii.eqb_spec c ".") as [->|Hc].
    + rewrite (Hfrac rest eq_refl). reflexivity.
    + destruct c as [[] [] [] [] [] [] [] []]; try reflexivity. congruence.
Qed.

Section Stages.

Context {libm : Libm}.

Lemma apply_operator_throws (o : string) (a b : float) (stack : list float)
  (e : exception) :
  apply_operator o a b stack = Throw e -> e = runtime_error "Division by zero".
Proof.
  unfold apply_operator.
  repeat (match goal with |- context [if ?c then _ else _] => destruct c end;
          try discriminate).
  congruence.
Qed.

Lemma apply_function_throws (name : string) (a : float) (stack : list float)
  (e : exception) :
  apply_function name a stack = Throw e ->
  e = runtime_error ("Unknown function: " ++ name)%string.
Proof.
  unfold apply_function.
  repeat (match goal with |- context [if ?c then _ else _] => destruct c end;
          try discriminate).
  congruence.
Qed.

Lemma solveRPN_step_throws (token : Token) (stack : list float) (e : exception) :
  solveRPN_step token stack = Throw e -> evaluate_exception e.
Proof.
  unfold solveRPN_step, evaluate_exception. destruct (type token).
  - destruct (stod (value token)) as [v|e'] eqn:Hs; simpl; [discriminate|].
    intro H. injection H as <-.
    destruct (stod_throws _ _ Hs) as [-> | ->]; tauto.
  - destruct (_ <? 2)%nat; [intro H; injection H as <-; tauto|].
    destruct stack as [|b [|a stack]]; try (intro H; injection H as <-; tauto).
    intro H. apply apply_operator_throws in H. tauto.
  - destruct stack as [|a stack]; [intro H; injection H as <-; tauto|].
    intro H. apply apply_function_throws in H.
    right; right; right; right; left. exists (value token). exact H.
  - discriminate.
  - discriminate.
Qed.

Lemma solveRPN_loop_throws (rpn : list Token) (stack : list float) (e : exception) :
  solveRPN_loop rpn stack = Throw e -> evaluate_exception e.
Proof.
  revert stack. induction rpn as [|token rpn IH]; intro stack; simpl.
  - destruct (negb _); [intro H; injection H as <-; unfold evaluate_exception; tauto|].
    destruct stack; [|discriminate].
    intro H; injection H as <-; unfold evaluate_exception; tauto.
  - destruct (solveRPN_step token stack) as [stack'|e'] eqn:Hs.
    + apply IH.
    + intro H. injection H as <-. exact (solveRPN_step_throws _ _ _ Hs).
Qed.

Lemma evaluate_throws (expression : string) (e : exception) :
  evaluate expression = Throw e -> evaluate_exception e.
Proof.
  unfold evaluate.
  destruct (shuntingYard (tokenize expression)) as [rpn|e'] eqn:Hp; simpl.
  - apply solveRPN_loop_throws.
  - intro H. injection H as <-. apply shuntingYard_throws in Hp.
    subst e'. unfold evaluate_exception, mismatched. tauto.
Qed.

End Stages.

(** * The claims *)

Section Claims.

Context {libm : Libm}.

(** ** Precedence and associativity *)

(** C1. The operator table gives [+] and [-] precedence 1, [*], [/] and
    [%] precedence 2 and [^] precedence 3, and only [^] is
    right-associative.  Of two operators in a row the parser applies the
    first one first exactly when the second yields to it.  So
    [evaluate] gives 2+3 = 5, 2+3*4 = 14, (2+3)*4 = 20 and
    2^3^2 = 2^(3^2), which is 512 once [std::pow] is exact on these
    small integers. *)
Theorem evaluate_precedence_associativity :
  pow 3 2 = 9%float -> pow 2 9 = 512%float ->
  (getPrecedence "+" = 1 /\ getPrecedence "-" = 1 /\ getPrecedence "*" = 2
   /\ getPrecedence "/" = 2 /\ getPrecedence "%" = 2 /\ getPrecedence "^" = 3)%Z
  /\ (forall o, isRightAssociative o = true <-> o = "^")
  /\ (forall a b c o1 o2,
        shuntingYard [num a; op o1; num b; op o2; num c] =
        Return (if yields_to o2 o1
                then [num a; num b; op o1; num c; op o2]
                else [num a; num b; num c; op o2; op o1]))
  /\ evaluate "2+3" = Return 5%float
  /\ evaluate "2+3*4" = Return 14%float
  /\ evaluate "(2+3)*4" = Return 20%float
  /\ evaluate "2^3^2" = Return (pow 2 (pow 3 2))
  /\ evaluate "2^3^2" = Return 512%float.
Proof.
  intros H32 H29.
  assert (E : evaluate "2^3^2" = Return (pow 2 (pow 3 2)))
    by (vm_compute; reflexivity).
  split; [repeat split; reflexivity|].
  split; [intro o; apply String.eqb_eq|].
  split; [exact shuntingYard_two_operators|].
  repeat (split; [vm_compute; reflexivity|]).
  rewrite E, H32, H29. reflexivity.
Qed.

(** ** Unary minus *)

(** C2. On a ['-'] the tokenizer emits the function token ["_"] when no
    token has been emitted yet or the last one is a left parenthesis or
    an operator, and the operator ["-"] otherwise.  The marker ["_"] is
    none of the four function names, and no word read by the tokenizer
    is equal to it: a function token is the marker or a nonempty run of
    letters.  So -5+3 = -2 and 3-(-2) = 5. *)
Theorem tokenize_minus (rest : string) (tokens : list Token) :
  tokenize_from (String "-" rest) tokens =
    tokenize_from rest
      (tokens ++ [if unary_position tokens then fn "_" else op "-"])
  /\ (unary_position tokens = true <->
      (back tokens = None
       \/ exists t, back tokens = Some t
                    /\ (type t = LeftParen \/ type t = Operator)))
  /\ ("_" <> "sin" /\ "_" <> "cos" /\ "_" <> "tan" /\ "_" <> "sqrt")
  /\ (forall c run, isalpha c = true -> String c run <> "_")
  /\ (forall expression t,
        In t (tokenize expression) -> type t = Function ->
        value t = "_"
        \/ (value t <> EmptyString /\ all_chars isalpha (value t) = true))
  /\ tokenize "-5+3" = [fn "_"; num "5"; op "+"; num "3"]
  /\ tokenize "3-(-2)" =
       [num "3"; op "-"; mkToken LeftParen "("; fn "_"; num "2";
        mkToken RightParen ")"]
  /\ evaluate "-5+3" = Return (-2)%float
  /\ evaluate "3-(-2)" = Return 5%float.
Proof.
  split.
  { rewrite tokenize_from_equation_2. cbn.
    destruct (unary_position tokens); reflexivity. }
  split; [apply unary_position_iff|].
  split; [repeat split; discriminate|].
  split; [exact word_not_marker|].
  split.
  { intros expression t Hin Ht.
    pose proof (tokenize_ok expression) as Hok.
    rewrite Forall_forall in Hok. specialize (Hok t Hin).
    unfold token_ok in Hok. rewrite Ht in Hok. exact Hok. }
  repeat split; vm_compute; reflexivity.
Qed.

(** ** The operator [%] *)

(** C3. The tokenizer reads ['%'] as an operator token and the parser
    gives it precedence 2; the evaluator pops its two operands and
    pushes nothing, so what follows does not depend on the operands.
    7%4 ends with an empty stack and fails. *)
Theorem percent_has_no_rule
  (rest : string) (tokens rpn : list Token) (a b a' b' : float)
  (stack : list float) :
  tokenize_from (String "%" rest) tokens =
    tokenize_from rest (tokens ++ [op "%"])
  /\ getPrecedence "%" = 2%Z
  /\ solveRPN_step (op "%") (b :: a :: stack) = Return stack
  /\ solveRPN_loop (op "%" :: rpn) (b :: a :: stack) = solveRPN_loop rpn stack
  /\ solveRPN_loop (op "%" :: rpn) (b :: a :: stack) =
     solveRPN_loop (op "%" :: rpn) (b' :: a' :: stack)
  /\ shuntingYard (tokenize "7%4") = Return [num "7"; num "4"; op "%"]
  /\ evaluate "7%4" = Throw (runtime_error "Invalid expression").
Proof.
  split.
  { rewrite tokenize_from_equation_2. reflexivity. }
  repeat split; vm_compute; reflexivity.
Qed.

(** ** Totality and number literals *)

(** C4, as the code has it.  [evaluate] ends on every string, with a
    value or with one of the exceptions of [evaluate_exception].  A
    number token with no digit before its first dot and none right
    after it, such as ".", makes [std::stod] throw
    [std::invalid_argument], which [evaluate] lets through.  A literal
    with several dots is not rejected: [std::stod] converts its longest
    valid prefix, so "1.5.2" evaluates to 1.5. *)
Theorem evaluate_total (expression : string) :
  ((exists v, evaluate expression = Return v)
   \/ (exists e, evaluate expression = Throw e /\ evaluate_exception e))
  /\ (forall text,
        stod text = Throw (invalid_argument "stod") <->
        (take_run isdigit text = EmptyString
         /\ forall rest, drop_run isdigit text = String "." rest ->
                         take_run isdigit rest = EmptyString))
  /\ evaluate "." = Throw (invalid_argument "stod")
  /\ tokenize "1.5.2" = [num "1.5.2"]
  /\ evaluate "1.5.2" = Return 1.5%float.
Proof.
  split; [|split; [exact stod_invalid_argument|];
           repeat split; vm_compute; reflexivity].
  destruct (evaluate expression) as [v|e] eqn:He.
  - left. exists v. reflexivity.
  - right. exists e. split; [reflexivity | exact (evaluate_throws _ _ He)].
Qed.

(** ** Division *)

(** C5. With [b] on top of the stack and [a] below it, the operator [/]
    throws "Division by zero" exactly when [b == 0], and pushes [a / b]
    otherwise.  5/0 fails in this way. *)
Theorem division_by_zero (a b : float) (stack : list float) :
  solveRPN_step (op "/") (b :: a :: stack) =
    (if (b =? 0)%float then Throw (runtime_error "Division by zero")
     else Return ((a / b)%float :: stack))
  /\ (solveRPN_step (op "/") (b :: a :: stack) =
        Throw (runtime_error "Division by zero")
      <-> (b =? 0)%float = true)
  /\ evaluate "5/0" = Throw (runtime_error "Division by zero").
Proof.
  assert (E : solveRPN_step (op "/") (b :: a :: stack) =
    (if (b =? 0)%float then Throw (runtime_error "Division by zero")
     else Return ((a / b)%float :: stack))) by reflexivity.
  split; [exact E|]. split; [|vm_compute; reflexivity].
  rewrite E. destruct (b =? 0)%float; split; intro H;
    solve [reflexivity | discriminate H].
Qed.

(** ** Mismatched parentheses *)

(** C6. The parser throws "Mismatched parentheses" exactly when the
    parentheses of the token sequence are not balanced, and returns a
    postfix sequence otherwise.  A right parenthesis fails exactly when
    no left parenthesis is on the operator stack, and the final flush
    fails exactly when one is left there.  Both (1+2 and 1+2) fail. *)
Theorem mismatched_parentheses (tokens operators output : list Token) :
  (shuntingYard tokens = Throw (runtime_error "Mismatched parentheses")
   <-> balanced tokens = false)
  /\ ((exists rpn, shuntingYard tokens = Return rpn) <-> balanced tokens = true)
  /\ (shuntingYard_step (mkToken RightParen ")") operators output =
        Throw (runtime_error "Mismatched parentheses")
      <-> open_parens operators = 0)
  /\ (flush_operators operators output =
        Throw (runtime_error "Mismatched parentheses")
      <-> open_parens operators <> 0)
  /\ evaluate "(1+2" = Throw (runtime_error "Mismatched parentheses")
  /\ evaluate "1+2)" = Throw (runtime_error "Mismatched parentheses").
Proof.
  split; [apply shuntingYard_balanced|].
  split.
  { pose proof (shuntingYard_balanced tokens) as [H1 H2]. fold mismatched.
    destruct (shuntingYard tokens) as [rpn|e] eqn:Hs.
    - split; [intros _ | intros _; exists rpn; reflexivity].
      destruct (balanced tokens); [reflexivity|].
      specialize (H2 eq_refl). discriminate H2.
    - split; [intros [rpn Hr]; discriminate Hr|].
      intro Hb. apply shuntingYard_throws in Hs. subst e.
      rewrite (H1 eq_refl) in Hb. discriminate Hb. }
  split.
  { change (shuntingYard_step (mkToken RightParen ")") operators output)
      with (close_paren operators output).
    pose proof (close_paren_spec operators output) as H.
    destruct (close_paren operators output) as [[ops out]|e].
    - split; [discriminate | intro H0; rewrite H0 in H; discriminate H].
    - destruct H as [-> H0]. split; [intros _; exact H0 | reflexivity]. }
  split.
  { pose proof (flush_operators_spec operators output) as H.
    destruct (flush_operators operators output) as [rpn|e].
    - split; [discriminate | intro H0; contradiction].
    - destruct H as [-> H0]. split; [intros _; exact H0 | reflexivity]. }
  split; vm_compute; reflexivity.
Qed.

(** ** Too few operands *)

(** C7, as the code has it.  An operator token met with fewer than two
    values on the stack and a function token met with none make the
    evaluator throw, but not the same exception: the operator throws
    "Invalid expression", which is also what the final test of the
    stack throws, and the function throws "Invalid function call".  A
    trailing operator fails as the empty expression does, a function
    without argument in its own way. *)
Theorem too_few_operands (token : Token) (stack : list float) (rpn : list Token) :
  (type token = Operator /\ List.length stack < 2)
  \/ (type token = Function /\ List.length stack < 1) ->
  solveRPN_loop (token :: rpn) stack =
    Throw (runtime_error
             (match type token with
              | Operator => "Invalid expression"
              | _ => "Invalid function call"
              end))
  /\ evaluate "1+" = Throw (runtime_error "Invalid expression")
  /\ evaluate "1+" = evaluate ""
  /\ evaluate "sqrt" = Throw (runtime_error "Invalid function call").
Proof.
  intro H. split; [|repeat split; vm_compute; reflexivity].
  simpl. unfold solveRPN_step.
  destruct H as [[Ht Hlen] | [Ht Hlen]]; rewrite Ht.
  - apply Nat.ltb_lt in Hlen. rewrite Hlen. reflexivity.
  - destruct stack; [reflexivity | simpl in Hlen; lia].
Qed.

(** ** The final stack *)

(** C8. When no token is left the evaluator returns the value on the
    stack if it is the only one, and throws "Invalid expression" for any
    other stack.  The empty expression and "1 2" fail in this way. *)
Theorem final_stack_check (stack : list float) :
  solveRPN_loop [] stack =
    match stack with
    | [v] => Return v
    | _ => Throw (runtime_error "Invalid expression")
    end
  /\ (List.length stack <> 1 ->
      solveRPN_loop [] stack = Throw (runtime_error "Invalid expression"))
  /\ evaluate "" = Throw (runtime_error "Invalid expression")
  /\ evaluate "1 2" = Throw (runtime_error "Invalid expression").
Proof.
  split; [destruct stack as [|v [|w stack]]; reflexivity|].
  split; [|split; vm_compute; reflexivity].
  intro H. destruct stack as [|v [|w stack]]; simpl in *;
    solve [reflexivity | congruence].
Qed.

(** ** Unknown functions *)

(** C9, as the code has it.  A maximal run of letters is one function
    token.  A function token whose name is none of ["_"], ["sin"],
    ["cos"], ["tan"], ["sqrt"] and that finds a value on the stack makes
    the evaluator throw "Unknown function: " followed by the name; on an
    empty stack it throws "Invalid function call" first.  foo(1) fails
    with "Unknown function: foo". *)
Theorem unknown_function
  (word rest name : string) (tokens rpn : list Token) (a : float)
  (stack : list float) :
  word <> EmptyString -> all_chars isalpha word = true ->
  stops isalpha rest = true ->
  ~ In name ["_"; "sin"; "cos"; "tan"; "sqrt"] ->
  tokenize_from (word ++ rest)%string tokens =
    tokenize_from rest (tokens ++ [fn word])
  /\ solveRPN_loop (fn name :: rpn) (a :: stack) =
       Throw (runtime_error ("Unknown function: " ++ name)%string)
  /\ solveRPN_loop (fn name :: rpn) [] =
       Throw (runtime_error "Invalid function call")
  /\ evaluate "foo(1)" = Throw (runtime_error "Unknown function: foo").
Proof.
  intros Hne Hw Hr Hname.
  split; [exact (tokenize_word _ _ _ Hne Hw Hr)|].
  split; [|split; [reflexivity | vm_compute; reflexivity]].
  cbn [solveRPN_loop]. unfold solveRPN_step. cbn [fn type value].
  unfold apply_function.
  repeat match goal with
  | |- context [(name =? ?s)%string] =>
    destruct (String.eqb_spec name s) as [E|_];
      [exfalso; apply Hname; rewrite E; simpl; auto 10|]
  end.
  reflexivity.
Qed.

(** ** Unary minus and the operators that follow *)

(** C10. A function token on top of the operator stack is moved to the
    output before any operator is pushed, so the unary minus is applied
    to the operand that follows it before any binary operator:
    [_ x o y] becomes [x _ y o], and -2^2 is (-2)^2, which is 4 once
    [std::pow] is exact on these small integers. *)
Theorem unary_minus_binds_first (x o y : string) :
  pow (-2) 2 = 4%float ->
  (forall top token below output, type top = Function ->
     pop_operators token (top :: below) output =
     pop_operators token below (output ++ [top]))
  /\ shuntingYard [fn "_"; num x; op o; num y] =
       Return [num x; fn "_"; num y; op o]
  /\ tokenize "-2^2" = [fn "_"; num "2"; op "^"; num "2"]
  /\ evaluate "-2^2" = Return (pow (-2) 2)
  /\ evaluate "-2^2" = Return 4%float.
Proof.
  intros H22.
  assert (E : evaluate "-2^2" = Return (pow (-2) 2))
    by (vm_compute; reflexivity).
  split.
  { intros top token below output Htop. simpl. rewrite Htop. reflexivity. }
  repeat (split; [vm_compute; reflexivity|]).
  rewrite E, H22. reflexivity.
Qed.

End Claims.

(** ** The claims on concrete inputs

    The evaluator is run with [small_libm], whose power is exact on the
    small integers used here. *)

(** C1, witness: 3^2 = 9 and 2^9 = 512 in [small_libm], and 2^3^2
    evaluates to 512. *)
Lemma evaluate_precedence_associativity_witness :
  (@pow small_libm 3 2 = 9%float /\ @pow small_libm 2 9 = 512%float)
  /\ @evaluate small_libm "2^3^2" = Return 512%float.
Proof.
  split; [split; reflexivity|].
  apply (@evaluate_precedence_associativity small_libm); reflexivity.
Defined.

(** C10, witness: (-2)^2 = 4 in [small_libm], and -2^2 evaluates
    to 4. *)
Lemma unary_minus_binds_first_witness :
  @pow small_libm (-2) 2 = 4%float
  /\ shuntingYard [fn "_"; num "2"; op "^"; num "2"] =
       Return [num "2"; fn "_"; num "2"; op "^"]
  /\ @evaluate small_libm "-2^2" = Return 4%float.
Proof.
  split; [reflexivity|].
  split; apply (@unary_minus_binds_first small_libm "2" "^" "2"); reflexivity.
Defined.

(** C7, witness: the operator of the postfix sequence [1 +] finds one
    value on the stack. *)
Lemma too_few_operands_witness :
  (type (op "+") = Operator /\ List.length [1%float] < 2)
  /\ @solveRPN_loop small_libm [op "+"] [1%float] =
       Throw (runtime_error "Invalid expression").
Proof.
  split; [split; [reflexivity | simpl; lia]|].
  apply (@too_few_operands small_libm (op "+") [1%float] []).
  left. split; [reflexivity | simpl; lia].
Defined.

(** C9, witness: the word foo before a parenthesis, and the function
    token foo applied to one value. *)
Lemma unknown_function_witness :
  (all_chars isalpha "foo" = true /\ stops isalpha "(1)" = true
   /\ ~ In "foo" ["_"; "sin"; "cos"; "tan"; "sqrt"])
  /\ tokenize_from "foo(1)" [] = tokenize_from "(1)" [fn "foo"]
  /\ @solveRPN_loop small_libm [fn "foo"] [1%float] =
       Throw (runtime_error "Unknown function: foo").
Proof.
  assert (Hname : ~ In "foo" ["_"; "sin"; "cos"; "tan"; "sqrt"]).
  { simpl. intros [H|[H|[H|[H|[H|H]]]]]; solve [discriminate H | exact H]. }
  split; [split; [reflexivity | split; [reflexivity | exact Hname]]|].
  split;
    apply (@unknown_function small_libm "foo" "(1)" "foo" [] [] 1%float []);
    solve [discriminate | reflexivity | exact Hname].
Defined.

(** C4, counterexample: a literal with two dots is one number token and
    is not rejected; [evaluate] returns the value of its prefix 1.5. *)
Lemma multiple_dots_not_rejected :
  tokenize "1.5.2" = [num "1.5.2"]
  /\ stod "1.5.2" = Return 1.5%float
  /\ @evaluate small_libm "1.5.2" = Return 1.5%float.
Proof. repeat split; vm_compute; reflexivity. Qed.

(** C7, counterexample: too few operands do not give one kind of error.
    A trailing operator throws the exception of the final test of the
    stack, the one the empty expression throws, and a function without
    argument throws another one. *)
Lemma too_few_operands_two_errors :
  @evaluate small_libm "1+" = Throw (runtime_error "Invalid expression")
  /\ @evaluate small_libm "" = Throw (runtime_error "Invalid expression")
  /\ @evaluate small_libm "sqrt" = Throw (runtime_error "Invalid function call")
  /\ @evaluate small_libm "1+" <> @evaluate small_libm "sqrt".
Proof.
  split; [vm_compute; reflexivity|]. split; [vm_compute; reflexivity|].
  split; [vm_compute; reflexivity|].
  vm_compute. discriminate.
Qed.

(** C9, counterexample: the unknown word foo alone reaches the
    evaluator as a function token and fails with "Invalid function
    call", not with "Unknown function: foo". *)
Lemma unknown_function_without_operand :
  tokenize "foo" = [fn "foo"]
  /\ shuntingYard [fn "foo"] = Return [fn "foo"]
  /\ @evaluate small_libm "foo" = Throw (runtime_error "Invalid function call")
  /\ @evaluate small_libm "foo" <> Throw (runtime_error "Unknown function: foo").
Proof.
  split; [reflexivity|]. split; [reflexivity|].
  split; [vm_compute; reflexivity|].
  vm_compute. discriminate.
Qed.

(** * Further properties *)

(** ** The tokens of the tokenizer *)

Lemma tokenize_from_shape (expr : string) (tokens : list Token) :
  Forall token_shape tokens -> Forall token_shape (tokenize_from expr tokens).
Proof.
  funelim (tokenize_from expr tokens); [intro H; simp tokenize_from|].
  intro Hok. clear Heqcall.
  assert (Hpush : forall t, token_shape t -> Forall token_shape (tokens ++ [t])).
  { intros t Ht. apply Forall_app. split; [exact Hok|].
    constructor; [exact Ht | constructor]. }
  destruct (isspace c) eqn:Hs; [auto|].
  destruct (isdigit c || (c =? ".")%char) eqn:Hn.
  { apply H0, Hpush. split; [discriminate|]. simpl. unfold isnumchar at 1.
    rewrite Hn. apply all_chars_take_run. }
  destruct (isalpha c) eqn:Ha.
  { apply H1, Hpush. right. split; [discriminate|]. simpl.
    rewrite Ha. apply all_chars_take_run. }
  destruct (c =? "(")%char eqn:Hl; [apply H2, Hpush; reflexivity|].
  destruct (c =? ")")%char eqn:Hr; [apply H3, Hpush; reflexivity|].
  destruct (c =? "-")%char eqn:Hm.
  { apply Ascii.eqb_eq in Hm. subst c. destruct (unary_position tokens).
    - apply H4, Hpush. left. reflexivity.
    - apply H5, Hpush. exists "-"%char. split; reflexivity. }
  apply H6, Hpush. exists c. split; [reflexivity|].
  unfold operator_char, isnumchar. rewrite Hs, Hn, Ha, Hl, Hr. reflexivity.
Qed.

(** X1. Every token of [tokenize] has the text of its kind: a number is
    a nonempty run of digits and dots, a function the marker ["_"]
    or a nonempty run of letters, an operator a single character
    that is no white space, digit, dot, letter or parenthesis, and a
    parenthesis token is "(" or ")". *)
Theorem tokenize_token_shape (expression : string) (t : Token) :
  In t (tokenize expression) -> token_shape t.
Proof.
  intro Hin. pose proof (tokenize_from_shape expression [] (Forall_nil _)) as H.
  rewrite Forall_forall in H. exact (H t Hin).
Qed.

Lemma drop_run_length (p : ascii -> bool) (s : string) :
  String.length (drop_run p s) <= String.length s.
Proof.
  induction s as [|c rest IH]; simpl; [lia|].
  destruct (p c); simpl; lia.
Qed.

(** X2. The tokenizer only appends: the tokens already emitted are kept
    as they are, and at most one token is added for each character
    read. *)
Theorem tokenize_from_extends (expr : string) (tokens : list Token) :
  exists emitted,
    tokenize_from expr tokens = tokens ++ emitted
    /\ List.length emitted <= String.length expr.
Proof.
  funelim (tokenize_from expr tokens).
  - exists []. rewrite app_nil_r. simp tokenize_from. split; [reflexivity | simpl; lia].
  - clear Heqcall.
    assert (Hstep : forall t rest',
      String.length rest' <= String.length rest ->
      (exists emitted, tokenize_from rest' (tokens ++ [t]) = (tokens ++ [t]) ++ emitted
                       /\ List.length emitted <= String.length rest') ->
      exists emitted, tokenize_from rest' (tokens ++ [t]) = tokens ++ emitted
                      /\ List.length emitted <= String.length (String c rest)).
    { intros t rest' Hlen [em [Heq Hle]]. exists (t :: em).
      rewrite Heq, <- app_assoc. split; [reflexivity | simpl; lia]. }
    destruct (isspace c).
    { destruct H as [em [Heq Hle]]. exists em. split; [exact Heq | simpl; lia]. }
    destruct (isdigit c || (c =? ".")%char).
    { apply Hstep; [apply drop_run_length | exact H0]. }
    destruct (isalpha c).
    { apply Hstep; [apply drop_run_length | exact H1]. }
    destruct (c =? "(")%char; [apply Hstep; [lia | exact H2]|].
    destruct (c =? ")")%char; [apply Hstep; [lia | exact H3]|].
    destruct (c =? "-")%char.
    { destruct (unary_position tokens); apply Hstep; solve [lia | assumption]. }
    apply Hstep; [lia | exact H6].
Qed.

(** ** Runs and delimiters *)

Lemma take_run_app_stop (p : ascii -> bool) (s s2 : string) :
  stops p s2 = true -> take_run p (s ++ s2)%string = take_run p s.
Proof.
  intro Hs. induction s as [|c s IH]; simpl.
  - destruct s2 as [|d s2]; [reflexivity|]. simpl in *.
    apply negb_true_iff in Hs. rewrite Hs. reflexivity.
  - destruct (p c); [rewrite IH; reflexivity | reflexivity].
Qed.

Lemma drop_run_app_stop (p : ascii -> bool) (s s2 : string) :
  stops p s2 = true -> drop_run p (s ++ s2)%string = (drop_run p s ++ s2)%string.
Proof.
  intro Hs. induction s as [|c s IH]; simpl.
  - destruct s2 as [|d s2]; [reflexivity|]. simpl in *.
    apply negb_true_iff in Hs. rewrite Hs. reflexivity.
  - destruct (p c); [exact IH | reflexivity].
Qed.

Lemma starts_delimited_stops (s : string) :
  starts_delimited s = true ->
  stops isnumchar s = true /\ stops isalpha s = true.
Proof.
  destruct s as [|c s]; simpl; [split; reflexivity|].
  unfold delimiter. rewrite negb_true_iff, orb_false_iff.
  intros [H1 H2]. rewrite H1, H2. split; reflexivity.
Qed.

(** What comes before a delimiter is tokenized on its own. *)
Lemma tokenize_from_app (s1 s2 : string) (tokens : list Token) :
  starts_delimited s2 = true ->
  tokenize_from (s1 ++ s2)%string tokens = tokenize_from s2 (tokenize_from s1 tokens).
Proof.
  intro Hd. destruct (starts_delimited_stops s2 Hd) as [Hn Ha].
  apply (tokenize_from_elim
           (fun s1 tokens res =>
              tokenize_from (s1 ++ s2)%string tokens = tokenize_from s2 res));
    clear s1 tokens.
  - reflexivity.
  - intros c rest tokens H H0 H1 H2 H3 H4 H5 H6.
    simpl. rewrite tokenize_from_equation_2.
    destruct (isspace c); [exact H|].
    destruct (isdigit c || (c =? ".")%char).
    { cbv zeta in *.
      rewrite (take_run_app_stop _ _ _ Hn), (drop_run_app_stop _ _ _ Hn).
      exact H0. }
    destruct (isalpha c).
    { cbv zeta in *.
      rewrite (take_run_app_stop _ _ _ Ha), (drop_run_app_stop _ _ _ Ha).
      exact H1. }
    destruct (c =? "(")%char; [exact H2|].
    destruct (c =? ")")%char; [exact H3|].
    destruct (c =? "-")%char; [destruct (unary_position tokens); assumption|].
    exact H6.
Qed.

Lemma isspace_delimiter (c : ascii) : isspace c = true -> delimiter c = true.
Proof.
  destruct c as [[] [] [] [] [] [] [] []]; intro H;
    solve [discriminate H | reflexivity].
Qed.

Lemma tokenize_from_spaces (ws rest : string) (tokens : list Token) :
  all_chars isspace ws = true ->
  tokenize_from (ws ++ rest)%string tokens = tokenize_from rest tokens.
Proof.
  intro Hw. induction ws as [|c ws IH]; simpl in *; [reflexivity|].
  apply andb_true_iff in Hw as [Hc Hw].
  rewrite tokenize_from_equation_2, Hc. exact (IH Hw).
Qed.

Lemma append_empty_r (s : string) : (s ++ "")%string = s.
Proof. induction s as [|c s IH]; simpl; [reflexivity | rewrite IH; reflexivity]. Qed.

(** X3. White space before or after a text does not change its tokens,
    and white space inside a text separates what precedes it from
    what follows: the two parts are tokenized one after the other. *)
Theorem tokenize_white_space (s1 ws s2 : string) :
  all_chars isspace ws = true ->
  tokenize (ws ++ s2)%string = tokenize s2
  /\ tokenize (s1 ++ ws)%string = tokenize s1
  /\ (ws <> EmptyString ->
      tokenize (s1 ++ ws ++ s2)%string = tokenize_from s2 (tokenize s1)).
Proof.
  intro Hw. unfold tokenize.
  split; [apply tokenize_from_spaces; exact Hw|]. split.
  - destruct ws as [|c ws]; [rewrite append_empty_r; reflexivity|].
    rewrite tokenize_from_app.
    + rewrite <- (append_empty_r (String c ws)), tokenize_from_spaces; [|exact Hw].
      simp tokenize_from. reflexivity.
    + simpl in *. apply andb_true_iff in Hw as [Hc _].
      apply isspace_delimiter. exact Hc.
  - intro Hne. rewrite tokenize_from_app.
    + apply tokenize_from_spaces. exact Hw.
    + destruct ws as [|c ws]; [congruence|]. simpl in *.
      apply andb_true_iff in Hw as [Hc _]. apply isspace_delimiter. exact Hc.
Qed.

Lemma isnumchar_class (c : ascii) :
  isnumchar c = true -> isspace c = false.
Proof.
  destruct c as [[] [] [] [] [] [] [] []]; intro H;
    solve [discriminate H | reflexivity].
Qed.

(** A maximal run of digits and dots becomes one [Number] token. *)
Lemma tokenize_number (text rest : string) (tokens : list Token) :
  text <> EmptyString -> all_chars isnumchar text = true ->
  stops isnumchar rest = true ->
  tokenize_from (text ++ rest)%string tokens =
  tokenize_from rest (tokens ++ [num text]).
Proof.
  intros Hne Hw Hr. destruct text as [|c text]; [congruence|].
  simpl in Hw. apply andb_true_iff in Hw as [Hc Hw].
  pose proof (isnumchar_class c Hc) as Hs.
  simpl. rewrite tokenize_from_equation_2, Hs. unfold isnumchar in Hc. rewrite Hc.
  cbv zeta. rewrite (take_run_word _ _ _ Hw Hr), (drop_run_word _ _ _ Hw Hr).
  reflexivity.
Qed.

Lemma tokenize_literal (text : string) :
  text <> EmptyString -> all_chars isnumchar text = true ->
  tokenize text = [num text].
Proof.
  intros Hne Hw. unfold tokenize.
  rewrite <- (append_empty_r text) at 1.
  rewrite (tokenize_number text "" [] Hne Hw eq_refl). simp tokenize_from.
  reflexivity.
Qed.

Section Literal.
Context {libm : Libm}.

Lemma evaluate_literal_stod (text : string) :
  text <> EmptyString -> all_chars isnumchar text = true ->
  evaluate text = stod text.
Proof.
  intros Hne Hw. unfold evaluate. rewrite (tokenize_literal text Hne Hw).
  cbn. unfold solveRPN_step. cbn. destruct (stod text); reflexivity.
Qed.

(** X4. A maximal run of digits and dots becomes one number token,
    whatever follows it; such a run alone evaluates to what
    [std::stod] makes of it. *)
Theorem number_literal (text rest : string) (tokens : list Token) :
  text <> EmptyString -> all_chars isnumchar text = true ->
  stops isnumchar rest = true ->
  tokenize_from (text ++ rest)%string tokens =
    tokenize_from rest (tokens ++ [num text])
  /\ evaluate text = stod text.
Proof.
  intros Hne Hw Hr.
  split; [exact (tokenize_number _ _ _ Hne Hw Hr) | exact (evaluate_literal_stod _ Hne Hw)].
Qed.

End Literal.

(** ** Literals with several dots *)

Lemma all_chars_app (p : ascii -> bool) (s1 s2 : string) :
  all_chars p (s1 ++ s2)%string = all_chars p s1 && all_chars p s2.
Proof.
  induction s1 as [|c s1 IH]; simpl; [reflexivity|].
  rewrite IH, andb_assoc. reflexivity.
Qed.

Lemma all_chars_weaken (p q : ascii -> bool) (s : string) :
  (forall c, p c = true -> q c = true) ->
  all_chars p s = true -> all_chars q s = true.
Proof.
  intros Hpq. induction s as [|c s IH]; simpl; [reflexivity|].
  intro H. apply andb_true_iff in H as [Hc Hs].
  rewrite (Hpq c Hc), (IH Hs). reflexivity.
Qed.

Lemma isdigit_isnumchar (c : ascii) : isdigit c = true -> isnumchar c = true.
Proof. unfold isnumchar. intros ->. reflexivity. Qed.

Lemma take_run_all (p : ascii -> bool) (s : string) :
  all_chars p s = true -> take_run p s = s.
Proof.
  intro H. rewrite <- (append_empty_r s) at 1.
  apply take_run_word; [exact H | reflexivity].
Qed.

(** [std::stod] reads the digits before the first dot and the digits
    right after it, and nothing else. *)
Lemma stod_prefix (a b rest : string) :
  all_chars isdigit a = true -> all_chars isdigit b = true ->
  stops isdigit rest = true ->
  stod (a ++ "." ++ b ++ rest) = stod (a ++ "." ++ b).
Proof.
  intros Ha Hb Hr. unfold stod.
  change (a ++ "." ++ b ++ rest)%string with (a ++ String "." (b ++ rest))%string.
  change (a ++ "." ++ b)%string with (a ++ String "." b)%string.
  rewrite (take_run_word isdigit a (String "." (b ++ rest)) Ha eq_refl).
  rewrite (drop_run_word isdigit a (String "." (b ++ rest)) Ha eq_refl).
  rewrite (take_run_word isdigit a (String "." b) Ha eq_refl).
  rewrite (drop_run_word isdigit a (String "." b) Ha eq_refl).
  rewrite (take_run_word isdigit b rest Hb Hr), (take_run_all isdigit b Hb).
  reflexivity.
Qed.

Section Dots.
Context {libm : Libm}.

(** X5. What follows the second dot of a literal is ignored: digits,
    dot, digits, dot and anything more evaluates as the text before
    the second dot. *)
Theorem evaluate_second_dot (a b c : string) :
  all_chars isdigit a = true -> all_chars isdigit b = true ->
  all_chars isnumchar c = true ->
  evaluate (a ++ "." ++ b ++ "." ++ c) = evaluate (a ++ "." ++ b).
Proof.
  intros Ha Hb Hc.
  pose proof (all_chars_weaken _ _ a isdigit_isnumchar Ha) as Ha'.
  pose proof (all_chars_weaken _ _ b isdigit_isnumchar Hb) as Hb'.
  rewrite !evaluate_literal_stod.
  - apply (stod_prefix a b ("." ++ c) Ha Hb). reflexivity.
  - destruct a; discriminate.
  - rewrite all_chars_app, Ha'. simpl. exact Hb'.
  - destruct a; discriminate.
  - rewrite all_chars_app, Ha'. simpl. rewrite all_chars_app, Hb'. simpl. exact Hc.
Qed.

End Dots.

(** ** The postfix sequence as a rearrangement *)

Lemma pop_operators_pending (token : Token) (operators output : list Token) :
  pending (fst (pop_operators token operators output))
          (snd (pop_operators token operators output)) =
  pending operators output.
Proof.
  revert output. induction operators as [|top below IH]; intro output; simpl.
  - reflexivity.
  - destruct (TokenType_eqb (type top) LeftParen) eqn:Hlp; [reflexivity|].
    destruct (_ || _); [|reflexivity].
    rewrite IH. unfold pending, not_LeftParen at 2. simpl. rewrite Hlp. simpl.
    rewrite <- app_assoc. reflexivity.
Qed.

Lemma pop_until_LeftParen_pending (operators output : list Token) :
  pending (fst (pop_until_LeftParen operators output))
          (snd (pop_until_LeftParen operators output)) =
  pending operators output.
Proof.
  revert output. induction operators as [|top below IH]; intro output; simpl.
  - reflexivity.
  - destruct (TokenType_eqb (type top) LeftParen) eqn:Hlp; [reflexivity|].
    rewrite IH. unfold pending, not_LeftParen at 2. simpl. rewrite Hlp. simpl.
    rewrite <- app_assoc. reflexivity.
Qed.

Lemma close_paren_pending (operators output operators' output' : list Token) :
  close_paren operators output = Return (operators', output') ->
  pending operators' output' = pending operators output.
Proof.
  unfold close_paren.
  pose proof (pop_until_LeftParen_pending operators output) as H.
  pose proof (pop_until_LeftParen_spec operators output) as Hs.
  destruct (pop_until_LeftParen operators output) as [ops out]. simpl in H, Hs.
  destruct ops as [|lp ops]; [discriminate|]. destruct Hs as [Hlp _].
  assert (Hp : pending ops out = pending operators output).
  { rewrite <- H. unfold pending, not_LeftParen at 2. simpl. rewrite Hlp. reflexivity. }
  destruct ops as [|top below].
  - intro E. injection E as <- <-. exact Hp.
  - destruct (TokenType_eqb (type top) Function) eqn:Hf; intro E; injection E as <- <-.
    + rewrite <- Hp. unfold pending, not_LeftParen at 2. simpl.
      apply TokenType_eqb_eq in Hf. rewrite Hf. simpl.
      rewrite <- app_assoc. reflexivity.
    + exact Hp.
Qed.

Lemma flush_operators_pending (operators output rpn : list Token) :
  flush_operators operators output = Return rpn -> rpn = pending operators output.
Proof.
  revert output. induction operators as [|top below IH]; intro output; simpl.
  - intro E. injection E as <-. unfold pending. simpl. rewrite app_nil_r. reflexivity.
  - destruct (TokenType_eqb (type top) LeftParen) eqn:Hlp; [discriminate|].
    intro E. rewrite (IH _ E). unfold pending, not_LeftParen at 2. simpl.
    rewrite Hlp. simpl. rewrite <- app_assoc. reflexivity.
Qed.

Lemma shuntingYard_step_pending
  (token : Token) (operators output operators' output' : list Token) :
  shuntingYard_step token operators output = Return (operators', output') ->
  Permutation (pending operators' output')
              (filter not_paren [token] ++ pending operators output).
Proof.
  assert (Hf : filter not_paren [token] =
               match type token with
               | LeftParen | RightParen => []
               | _ => [token]
               end).
  { unfold not_paren, is_paren. simpl. destruct (type token); reflexivity. }
  rewrite Hf. clear Hf. unfold shuntingYard_step.
  destruct (type token) eqn:Ht; simpl.
  - intro E. injection E as <- <-. unfold pending.
    rewrite <- app_assoc. apply Permutation_sym.
    apply (Permutation_middle output (filter not_LeftParen operators) token).
  - pose proof (pop_operators_pending token operators output) as H.
    destruct (pop_operators token operators output) as [ops out]. simpl in H.
    intro E. injection E as <- <-. rewrite <- H. unfold pending, not_LeftParen at 1.
    simpl. rewrite Ht. simpl. apply Permutation_sym, Permutation_middle.
  - intro E. injection E as <- <-. unfold pending, not_LeftParen at 1.
    simpl. rewrite Ht. simpl. apply Permutation_sym, Permutation_middle.
  - intro E. injection E as <- <-. unfold pending, not_LeftParen at 1.
    simpl. rewrite Ht. simpl. reflexivity.
  - intro E. rewrite (close_paren_pending _ _ _ _ E). reflexivity.
Qed.

Lemma shuntingYard_loop_pending (tokens operators output rpn : list Token) :
  shuntingYard_loop tokens operators output = Return rpn ->
  Permutation rpn (filter not_paren tokens ++ pending operators output).
Proof.
  revert operators output.
  induction tokens as [|token tokens IH]; intros operators output;
    cbn [shuntingYard_loop].
  - intro E. rewrite (flush_operators_pending _ _ _ E). reflexivity.
  - destruct (shuntingYard_step token operators output) as [[ops out]|e] eqn:Hs;
      [|discriminate].
    intro E. apply IH in E. apply shuntingYard_step_pending in Hs.
    change (token :: tokens) with ([token] ++ tokens). rewrite filter_app.
    eapply Permutation_trans; [exact E|].
    eapply Permutation_trans; [apply Permutation_app_head; exact Hs|].
    rewrite !app_assoc. apply Permutation_app_tail, Permutation_app_comm.
Qed.

(** X6. When the parser succeeds its output is a rearrangement of the
    input tokens without the parentheses: no token is lost, none is
    added, and no parenthesis reaches the evaluator. *)
Theorem shuntingYard_permutation (tokens rpn : list Token) :
  shuntingYard tokens = Return rpn ->
  Permutation rpn (filter not_paren tokens)
  /\ List.length rpn <= List.length tokens
  /\ forall t, In t rpn -> type t <> LeftParen /\ type t <> RightParen.
Proof.
  intro E. apply shuntingYard_loop_pending in E.
  unfold pending in E. simpl in E. rewrite app_nil_r in E.
  split; [exact E|]. split.
  - rewrite (Permutation_length E). apply filter_length_le.
  - intros t Hin. apply (Permutation_in _ E) in Hin.
    apply filter_In in Hin as [_ Hnp]. unfold not_paren, is_paren in Hnp.
    apply negb_true_iff, orb_false_iff in Hnp as [H1 H2].
    split; intro Ht; rewrite Ht in *; discriminate.
Qed.

(** ** The operands keep their order *)

Lemma filter_push_other (output : list Token) (t : Token) :
  is_Number t = false ->
  filter is_Number (output ++ [t]) = filter is_Number output.
Proof. intro H. rewrite filter_app. simpl. rewrite H. apply app_nil_r. Qed.

Lemma pop_operators_numbers (token : Token) (operators output : list Token) :
  no_Number operators ->
  no_Number (fst (pop_operators token operators output))
  /\ filter is_Number (snd (pop_operators token operators output)) =
     filter is_Number output.
Proof.
  revert output. induction operators as [|top below IH]; intros output Hn; simpl.
  - split; [exact Hn | reflexivity].
  - inversion Hn as [|? ? Htop Hbelow]; subst.
    destruct (TokenType_eqb (type top) LeftParen); [split; [exact Hn | reflexivity]|].
    destruct (_ || _); [|split; [exact Hn | reflexivity]].
    destruct (IH (output ++ [top]) Hbelow) as [H1 H2].
    split; [exact H1|]. rewrite H2. apply filter_push_other. exact Htop.
Qed.

Lemma pop_until_LeftParen_numbers (operators output : list Token) :
  no_Number operators ->
  no_Number (fst (pop_until_LeftParen operators output))
  /\ filter is_Number (snd (pop_until_LeftParen operators output)) =
     filter is_Number output.
Proof.
  revert output. induction operators as [|top below IH]; intros output Hn; simpl.
  - split; [exact Hn | reflexivity].
  - inversion Hn as [|? ? Htop Hbelow]; subst.
    destruct (TokenType_eqb (type top) LeftParen); [split; [exact Hn | reflexivity]|].
    destruct (IH (output ++ [top]) Hbelow) as [H1 H2].
    split; [exact H1|]. rewrite H2. apply filter_push_other. exact Htop.
Qed.

Lemma shuntingYard_step_numbers
  (token : Token) (operators output operators' output' : list Token) :
  no_Number operators ->
  shuntingYard_step token operators output = Return (operators', output') ->
  no_Number operators'
  /\ filter is_Number output' = filter is_Number output ++ filter is_Number [token].
Proof.
  intro Hn. unfold shuntingYard_step.
  assert (Hf : filter is_Number [token] =
               match type token with Number => [token] | _ => [] end).
  { unfold is_Number. simpl. destruct (type token); reflexivity. }
  assert (Ht : type token <> Number -> is_Number token = false).
  { unfold is_Number. destruct (type token); intro H; simpl; congruence. }
  rewrite Hf. clear Hf. destruct (type token) eqn:Hty.
  - intro E. injection E as <- <-. split; [exact Hn|].
    rewrite filter_app. simpl. unfold is_Number. rewrite Hty. reflexivity.
  - destruct (pop_operators_numbers token operators output Hn) as [H1 H2].
    destruct (pop_operators token operators output) as [ops out]. simpl in *.
    intro E. injection E as <- <-. rewrite app_nil_r.
    split; [constructor; [apply Ht; discriminate | exact H1] | exact H2].
  - intro E. injection E as <- <-. rewrite app_nil_r.
    split; [constructor; [apply Ht; discriminate | exact Hn] | reflexivity].
  - intro E. injection E as <- <-. rewrite app_nil_r.
    split; [constructor; [apply Ht; discriminate | exact Hn] | reflexivity].
  - unfold close_paren.
    destruct (pop_until_LeftParen_numbers operators output Hn) as [H1 H2].
    destruct (pop_until_LeftParen operators output) as [ops out]. simpl in *.
    rewrite app_nil_r. destruct ops as [|lp ops]; [discriminate|].
    inversion H1 as [|? ? _ Hrest]; subst.
    destruct ops as [|top below].
    + intro E. injection E as <- <-. split; [constructor | exact H2].
    + inversion Hrest as [|? ? Htop Hbelow]; subst.
      destruct (TokenType_eqb (type top) Function); intro E; injection E as <- <-.
      * split; [exact Hbelow|]. rewrite <- H2. apply filter_push_other. exact Htop.
      * split; [exact Hrest | exact H2].
Qed.

Lemma flush_operators_numbers (operators output rpn : list Token) :
  no_Number operators ->
  flush_operators operators output = Return rpn ->
  filter is_Number rpn = filter is_Number output.
Proof.
  revert output. induction operators as [|top below IH]; intros output Hn; simpl.
  - intro E. injection E as <-. reflexivity.
  - inversion Hn as [|? ? Htop Hbelow]; subst.
    destruct (TokenType_eqb (type top) LeftParen); [discriminate|].
    intro E. rewrite (IH _ Hbelow E). apply filter_push_other. exact Htop.
Qed.

Lemma shuntingYard_loop_numbers (tokens operators output rpn : list Token) :
  no_Number operators ->
  shuntingYard_loop tokens operators output = Return rpn ->
  filter is_Number rpn = filter is_Number output ++ filter is_Number tokens.
Proof.
  revert operators output.
  induction tokens as [|token tokens IH]; intros operators output Hn;
    cbn [shuntingYard_loop].
  - intro E. rewrite (flush_operators_numbers _ _ _ Hn E), app_nil_r. reflexivity.
  - destruct (shuntingYard_step token operators output) as [[ops out]|e] eqn:Hs;
      [|discriminate].
    destruct (shuntingYard_step_numbers _ _ _ _ _ Hn Hs) as [H1 H2].
    intro E. rewrite (IH _ _ H1 E), H2, <- app_assoc.
    change (token :: tokens) with ([token] ++ tokens). rewrite filter_app.
    reflexivity.
Qed.

(** X7. The parser keeps the numbers in the order of the input. *)
Theorem shuntingYard_numbers_in_order (tokens rpn : list Token) :
  shuntingYard tokens = Return rpn ->
  filter is_Number rpn = filter is_Number tokens.
Proof.
  intro E. apply (shuntingYard_loop_numbers tokens [] [] rpn); [constructor | exact E].
Qed.

(** ** Parentheses, character by character *)

Lemma paren_depth_push (tokens : list Token) (t : Token) (depth : nat) :
  paren_depth (tokens ++ [t]) depth =
  match paren_depth tokens depth with
  | Some d => paren_depth [t] d
  | None => None
  end.
Proof.
  revert depth. induction tokens as [|t0 tokens IH]; intro depth; simpl.
  - reflexivity.
  - destruct (type t0); try apply IH.
    destruct depth; [reflexivity | apply IH].
Qed.

Lemma not_paren_char (c : ascii) :
  isspace c = true \/ isnumchar c = true \/ isalpha c = true ->
  (c =? "(")%char = false /\ (c =? ")")%char = false.
Proof.
  destruct c as [[] [] [] [] [] [] [] []]; intros [H | [H | H]];
    solve [discriminate H | split; reflexivity].
Qed.

Lemma char_depth_drop_run (p : ascii -> bool) (s : string) (depth : nat) :
  (forall c, p c = true -> (c =? "(")%char = false /\ (c =? ")")%char = false) ->
  char_depth (drop_run p s) depth = char_depth s depth.
Proof.
  intro Hp. induction s as [|c s IH]; simpl; [reflexivity|].
  destruct (p c) eqn:Hc; [|reflexivity].
  destruct (Hp c Hc) as [-> ->]. exact IH.
Qed.

Lemma paren_depth_tokenize_from (expr : string) (tokens : list Token) (depth : nat) :
  paren_depth (tokenize_from expr tokens) depth =
  match paren_depth tokens depth with
  | Some d => char_depth expr d
  | None => None
  end.
Proof.
  revert depth.
  apply (tokenize_from_elim
           (fun expr tokens res => forall depth,
              paren_depth res depth =
              match paren_depth tokens depth with
              | Some d => char_depth expr d
              | None => None
              end)); clear expr tokens.
  - intros tokens depth. destruct (paren_depth tokens depth); reflexivity.
  - intros c rest tokens H H0 H1 H2 H3 H4 H5 H6 depth. cbv zeta in *.
    cbn [char_depth].
    destruct (isspace c) eqn:Hs.
    { destruct (not_paren_char c (or_introl Hs)) as [-> ->]. apply H. }
    destruct (isdigit c || (c =? ".")%char) eqn:Hn.
    { destruct (not_paren_char c (or_intror (or_introl Hn))) as [-> ->].
      rewrite H0, paren_depth_push.
      destruct (paren_depth tokens depth); [|reflexivity].
      apply char_depth_drop_run. intros d Hd. apply not_paren_char. tauto. }
    destruct (isalpha c) eqn:Ha.
    { destruct (not_paren_char c (or_intror (or_intror Ha))) as [-> ->].
      rewrite H1, paren_depth_push.
      destruct (paren_depth tokens depth); [|reflexivity].
      apply char_depth_drop_run. intros d Hd. apply not_paren_char. tauto. }
    destruct (c =? "(")%char eqn:Hl.
    { rewrite H2, paren_depth_push.
      destruct (paren_depth tokens depth); reflexivity. }
    destruct (c =? ")")%char eqn:Hr.
    { rewrite H3, paren_depth_push.
      destruct (paren_depth tokens depth) as [[|d]|]; reflexivity. }
    destruct (c =? "-")%char.
    { destruct (unary_position tokens).
      - rewrite H4, paren_depth_push.
        destruct (paren_depth tokens depth); reflexivity.
      - rewrite H5, paren_depth_push.
        destruct (paren_depth tokens depth); reflexivity. }
    rewrite H6, paren_depth_push.
    destruct (paren_depth tokens depth); reflexivity.
Qed.

Lemma balanced_tokenize (expression : string) :
  balanced (tokenize expression) = parens_balanced expression.
Proof.
  unfold balanced, parens_balanced, tokenize.
  rewrite paren_depth_tokenize_from. reflexivity.
Qed.

Section Priority.
Context {libm : Libm}.

Lemma solveRPN_step_not_mismatched (token : Token) (stack : list float) :
  solveRPN_step token stack <> Throw mismatched.
Proof.
  unfold solveRPN_step, mismatched. destruct (type token).
  - destruct (stod (value token)) as [v|e] eqn:Hs; simpl; [discriminate|].
    destruct (stod_throws _ _ Hs) as [-> | ->]; discriminate.
  - destruct (_ <? 2)%nat; [discriminate|].
    destruct stack as [|b [|a stack]]; try discriminate.
    intro H. apply apply_operator_throws in H. discriminate H.
  - destruct stack as [|a stack]; [discriminate|].
    intro H. apply apply_function_throws in H. discriminate H.
  - discriminate.
  - discriminate.
Qed.

Lemma solveRPN_loop_not_mismatched (rpn : list Token) (stack : list float) :
  solveRPN_loop rpn stack <> Throw mismatched.
Proof.
  revert stack. induction rpn as [|token rpn IH]; intro stack; simpl.
  - destruct (negb _); [discriminate|]. destruct stack; discriminate.
  - pose proof (solveRPN_step_not_mismatched token stack) as Hs.
    destruct (solveRPN_step token stack) as [stack'|e]; [apply IH | congruence].
Qed.

(** X8. [evaluate] throws "Mismatched parentheses" exactly when the
    parentheses of the text, read character by character, do not
    balance; this error comes before any error of the evaluator. *)
Theorem evaluate_mismatched (expression : string) :
  evaluate expression = Throw (runtime_error "Mismatched parentheses")
  <-> parens_balanced expression = false.
Proof.
  rewrite <- balanced_tokenize, <- shuntingYard_balanced. unfold evaluate.
  fold mismatched.
  destruct (shuntingYard (tokenize expression)) as [rpn|e]; simpl.
  - split; [intro H; exfalso; exact (solveRPN_loop_not_mismatched _ _ H) | discriminate].
  - split; intro H; injection H as ->; reflexivity.
Qed.

End Priority.

(** ** Precedence arithmetic *)

Lemma getPrecedence_range (o : string) : (0 <= getPrecedence o <= 3)%Z.
Proof.
  unfold getPrecedence.
  repeat match goal with |- context [if ?c then _ else _] => destruct c end; lia.
Qed.

Lemma rightAssociative_precedence (o : string) :
  isRightAssociative o = true -> getPrecedence o = 3%Z.
Proof. unfold isRightAssociative. intro H. apply String.eqb_eq in H. subst. reflexivity. Qed.

Lemma yields_to_spec (x y : string) :
  yields_to x y =
  if isRightAssociative x then (getPrecedence x <? getPrecedence y)%Z
  else (getPrecedence x <=? getPrecedence y)%Z.
Proof. unfold yields_to. destruct (isRightAssociative x); simpl; [reflexivity | apply orb_false_r]. Qed.

(** Case analysis on the associativity of the operators in sight. *)
Ltac prec_facts :=
  repeat match goal with
  | |- context [yields_to ?x ?y] => rewrite (yields_to_spec x y)
  | H : context [yields_to ?x ?y] |- _ => rewrite (yields_to_spec x y) in H
  end;
  repeat match goal with
  | |- context [isRightAssociative ?x] =>
    let R := fresh "R" in
    pose proof (rightAssociative_precedence x) as R;
    destruct (isRightAssociative x)
  | H : context [isRightAssociative ?x] |- _ =>
    let R := fresh "R" in
    pose proof (rightAssociative_precedence x) as R;
    destruct (isRightAssociative x)
  end;
  repeat match goal with
  | R : true = true -> _ |- _ => specialize (R eq_refl)
  | R : false = true -> _ |- _ => clear R
  end.

Lemma yields_down (o o3 o4 : string) :
  yields_to o3 o4 = true -> yields_to o3 o = false -> yields_to o4 o = false.
Proof.
  intros H1 H2. pose proof (getPrecedence_range o). pose proof (getPrecedence_range o3).
  pose proof (getPrecedence_range o4). prec_facts; lia.
Qed.

Lemma yields_up (o' o o3 : string) :
  yields_to o' o = true -> yields_to o3 o = false -> yields_to o' o3 = true.
Proof.
  intros H1 H2. pose proof (getPrecedence_range o). pose proof (getPrecedence_range o3).
  pose proof (getPrecedence_range o'). prec_facts; lia.
Qed.

(** ** What [run] leaves on the stack *)

Lemma is_fn_not_LeftParen (t : Token) : is_fn t = true -> not_LeftParen t = true.
Proof. unfold is_fn, not_LeftParen. destruct (type t); simpl; congruence. Qed.

Lemma forallb_weaken {A : Type} (p q : A -> bool) (l : list A) :
  (forall x, p x = true -> q x = true) ->
  forallb p l = true -> forallb q l = true.
Proof.
  intros Hpq. induction l as [|x l IH]; simpl; [reflexivity|].
  intro H. apply andb_true_iff in H as [Hx Hl]. rewrite (Hpq x Hx), (IH Hl). reflexivity.
Qed.

Lemma run_not_LeftParen (e : expr) (fs : list Token) :
  forallb is_fn fs = true -> forallb not_LeftParen (fst (run e fs)) = true.
Proof.
  revert fs. induction e as [text|e IH|f e IH|o a IHa b IHb]; intros fs Hfs; simpl.
  - exact (forallb_weaken _ _ _ is_fn_not_LeftParen Hfs).
  - destruct fs as [|f fs]; [reflexivity|]. simpl in Hfs.
    apply andb_true_iff in Hfs as [_ Hfs].
    exact (forallb_weaken _ _ _ is_fn_not_LeftParen Hfs).
  - apply IH. simpl. exact Hfs.
  - rewrite forallb_app, (IHb [] eq_refl). reflexivity.
Qed.

Lemma run_atom_functions (e : expr) (fs : list Token) :
  grouped e = true -> is_Bin e = false -> forallb is_fn fs = true ->
  forallb is_fn (fst (run e fs)) = true.
Proof.
  revert fs. induction e as [text|e IH|f e IH|o a IHa b IHb]; intros fs Hg Hb Hfs; simpl.
  - exact Hfs.
  - destruct fs as [|f fs]; [reflexivity|]. simpl in Hfs.
    apply andb_true_iff in Hfs. apply Hfs.
  - simpl in Hg. apply andb_true_iff in Hg as [He Hg]. apply negb_true_iff in He.
    apply IH; [exact Hg | exact He | exact Hfs].
  - discriminate.
Qed.

Lemma run_poppable (o' : string) (e : expr) :
  grouped e = true -> left_ok o' e = true ->
  forallb (poppable o') (fst (run e [])) = true.
Proof.
  induction e as [text|e IH|f e IH|o a IHa b IHb]; intros Hg Hl;
    try (apply (forallb_weaken is_fn);
         [intros t Ht; unfold poppable; rewrite Ht; reflexivity
         | apply run_atom_functions; [exact Hg | reflexivity | reflexivity]]).
  simpl in *. apply andb_true_iff in Hg as [Hg Hr].
  apply andb_true_iff in Hg as [Hg _]. apply andb_true_iff in Hg as [_ Hgb].
  rewrite forallb_app. apply andb_true_iff. split.
  - apply IHb; [exact Hgb|]. destruct b; try reflexivity. simpl in *.
    apply negb_true_iff in Hr. exact (yields_up _ _ _ Hl Hr).
  - simpl. unfold poppable. simpl. rewrite Hl. reflexivity.
Qed.

Lemma run_postfix (e : expr) (fs : list Token) :
  grouped e = true -> (is_Bin e = true -> fs = []) ->
  snd (run e fs) ++ fst (run e fs) = postfix e ++ fs.
Proof.
  revert fs. induction e as [text|e IH|f e IH|o a IHa b IHb]; intros fs Hg Hb; simpl.
  - reflexivity.
  - destruct fs; simpl; rewrite <- app_assoc; reflexivity.
  - simpl in Hg. apply andb_true_iff in Hg as [He Hg]. apply negb_true_iff in He.
    rewrite IH; [|exact Hg | rewrite He; discriminate].
    rewrite <- app_assoc. reflexivity.
  - rewrite (Hb eq_refl), app_nil_r. simpl in Hg.
    apply andb_true_iff in Hg as [Hg _]. apply andb_true_iff in Hg as [Hg _].
    apply andb_true_iff in Hg as [_ Hgb].
    specialize (IHb [] Hgb (fun _ => eq_refl)). rewrite app_nil_r in IHb.
    rewrite <- IHb, <- !app_assoc. reflexivity.
Qed.

Lemma right_ok_guards (o : string) (b : expr) :
  grouped b = true -> right_ok o b = true -> guards o b = true.
Proof.
  unfold guards.
  induction b as [text|e IH|f e IH|o3 b1 IH1 b2 IH2]; intros Hg Hr; try reflexivity.
  simpl in *. rewrite Hr. simpl.
  apply andb_true_iff in Hg as [Hg _]. apply andb_true_iff in Hg as [Hg Hl].
  apply andb_true_iff in Hg as [Hg1 _].
  apply IH1; [exact Hg1|]. destruct b1; try reflexivity. simpl in *.
  apply negb_true_iff in Hr. rewrite (yields_down _ _ _ Hl Hr). reflexivity.
Qed.

(** ** The three popping loops on a stack of known shape *)

Lemma pop_operators_poppable (o : string) (ps operators output : list Token) :
  forallb (poppable o) ps = true -> stops_at o operators = true ->
  pop_operators (op o) (ps ++ operators) output = (operators, output ++ ps).
Proof.
  revert output. induction ps as [|p ps IH]; intros output Hp Hs; simpl.
  - rewrite app_nil_r. destruct operators as [|top below]; [reflexivity|].
    simpl in *. destruct (TokenType_eqb (type top) LeftParen); [reflexivity|].
    simpl in Hs. apply andb_true_iff in Hs as [Ht Hy].
    apply TokenType_eqb_eq in Ht. rewrite Ht. simpl.
    apply negb_true_iff in Hy. unfold yields_to in Hy. rewrite Hy. reflexivity.
  - simpl in Hp. apply andb_true_iff in Hp as [Hp Hps].
    unfold poppable, is_fn in Hp.
    destruct (type p) eqn:Ht; simpl in Hp; try discriminate Hp; simpl.
    + unfold yields_to in Hp. rewrite Hp.
      rewrite (IH _ Hps Hs), <- app_assoc. reflexivity.
    + rewrite (IH _ Hps Hs), <- app_assoc. reflexivity.
Qed.

Lemma pop_until_LeftParen_shape (ps operators output : list Token) (lp : Token) :
  forallb not_LeftParen ps = true -> type lp = LeftParen ->
  pop_until_LeftParen (ps ++ lp :: operators) output =
  (lp :: operators, output ++ ps).
Proof.
  revert output. induction ps as [|p ps IH]; intros output Hp Hl; simpl.
  - rewrite Hl, app_nil_r. reflexivity.
  - simpl in Hp. apply andb_true_iff in Hp as [Hp Hps].
    unfold not_LeftParen in Hp. apply negb_true_iff in Hp. rewrite Hp.
    rewrite (IH _ Hps Hl), <- app_assoc. reflexivity.
Qed.

Lemma flush_operators_shape (ps output : list Token) :
  forallb not_LeftParen ps = true ->
  flush_operators ps output = Return (output ++ ps).
Proof.
  revert output. induction ps as [|p ps IH]; intros output Hp; simpl.
  - rewrite app_nil_r. reflexivity.
  - simpl in Hp. apply andb_true_iff in Hp as [Hp Hps].
    unfold not_LeftParen in Hp. apply negb_true_iff in Hp. rewrite Hp.
    rewrite (IH _ Hps), <- app_assoc. reflexivity.
Qed.

(** ** The parser on an expression *)

Lemma barrier_atom (operators : list Token) (e : expr) :
  is_Bin e = false ->
  barrier operators e =
  match operators with
  | [] => true
  | top :: _ =>
    TokenType_eqb (type top) LeftParen || TokenType_eqb (type top) Operator
  end.
Proof.
  intro Hb. destruct operators as [|top below]; [reflexivity|].
  unfold barrier, guards. destruct e; try discriminate; simpl;
    rewrite andb_true_r; reflexivity.
Qed.

Lemma barrier_not_Function (top : Token) (below : list Token) (e : expr) :
  barrier (top :: below) e = true -> TokenType_eqb (type top) Function = false.
Proof.
  simpl. destruct (type top); simpl; try reflexivity. discriminate.
Qed.

Lemma shuntingYard_loop_expr (e : expr) :
  forall (fs operators output rest : list Token),
  grouped e = true -> forallb is_fn fs = true ->
  (is_Bin e = true -> fs = []) -> barrier operators e = true ->
  shuntingYard_loop (tokens_of e ++ rest) (fs ++ operators) output =
  shuntingYard_loop rest (fst (run e fs) ++ operators) (output ++ snd (run e fs)).
Proof.
  induction e as [text|e IH|f e IH|o a IHa b IHb];
    intros fs operators output rest Hg Hfs Hb Hbar.
  - reflexivity.
  - cbn [tokens_of app shuntingYard_loop]. unfold shuntingYard_step at 1.
    cbn [lparen type]. rewrite <- app_assoc.
    change (lparen :: fs ++ operators) with ([] ++ lparen :: fs ++ operators).
    rewrite (IH [] (lparen :: fs ++ operators) output ([rparen] ++ rest) Hg eq_refl
               (fun _ => eq_refl) eq_refl).
    cbn [app shuntingYard_loop]. unfold shuntingYard_step at 1. cbn [rparen type].
    unfold close_paren.
    rewrite (pop_until_LeftParen_shape _ _ _ lparen (run_not_LeftParen e [] eq_refl) eq_refl).
    rewrite <- app_assoc, (run_postfix e [] Hg (fun _ => eq_refl)), app_nil_r.
    cbn [run fst snd].
    destruct fs as [|f fs].
    + cbn [app tl firstn]. rewrite app_nil_r.
      destruct operators as [|top below]; [reflexivity|].
      rewrite (barrier_not_Function _ _ _ Hbar). reflexivity.
    + cbn [app tl firstn]. simpl in Hfs. apply andb_true_iff in Hfs as [Hf _].
      unfold is_fn in Hf. rewrite Hf, app_assoc. reflexivity.
  - cbn [tokens_of app shuntingYard_loop]. unfold shuntingYard_step at 1.
    cbn [fn type]. simpl in Hg. apply andb_true_iff in Hg as [He Hg].
    apply negb_true_iff in He.
    change (fn f :: fs ++ operators) with ((fn f :: fs) ++ operators).
    apply IH; [exact Hg | exact Hfs | rewrite He; discriminate|].
    rewrite (barrier_atom _ _ He). rewrite (barrier_atom _ (Prefix f e) eq_refl) in Hbar.
    exact Hbar.
  - rewrite (Hb eq_refl). cbn [tokens_of app]. rewrite <- app_assoc. cbn [app].
    simpl in Hg. apply andb_true_iff in Hg as [Hg Hr].
    apply andb_true_iff in Hg as [Hg Hl]. apply andb_true_iff in Hg as [Hga Hgb].
    assert (Hbar_a : barrier operators a = true /\ stops_at o operators = true).
    { destruct operators as [|top below]; [split; reflexivity|].
      unfold barrier, guards in *. simpl in *.
      destruct (TokenType_eqb (type top) LeftParen); [split; reflexivity|].
      simpl in *. apply andb_true_iff in Hbar as [Ht Hbar].
      apply andb_true_iff in Hbar as [Ho Hbar]. rewrite Ht, Ho, Hbar.
      split; reflexivity. }
    destruct Hbar_a as [Hbar_a Hstop].
    change operators with ([] ++ operators) at 1.
    rewrite (IHa [] operators output _ Hga eq_refl (fun _ => eq_refl) Hbar_a).
    cbn [shuntingYard_loop]. unfold shuntingYard_step at 1. cbn [op type].
    change (mkToken Operator o) with (op o).
    rewrite (pop_operators_poppable o _ _ _ (run_poppable o a Hga Hl) Hstop).
    rewrite <- app_assoc, (run_postfix a [] Hga (fun _ => eq_refl)), app_nil_r.
    change (op o :: operators) with ([] ++ op o :: operators).
    rewrite (IHb [] (op o :: operators) (output ++ postfix a) rest Hgb eq_refl
               (fun _ => eq_refl)).
    + cbn [run fst snd]. rewrite <- !app_assoc. reflexivity.
    + unfold barrier. cbn [op type value TokenType_eqb orb andb].
      apply right_ok_guards; assumption.
Qed.

Lemma shuntingYard_tokens_of (e : expr) :
  grouped e = true -> shuntingYard (tokens_of e) = Return (postfix e).
Proof.
  intro Hg. unfold shuntingYard.
  rewrite <- (app_nil_r (tokens_of e)).
  change (@nil Token) with (@nil Token ++ @nil Token) at 2.
  rewrite (shuntingYard_loop_expr e [] [] [] [] Hg eq_refl (fun _ => eq_refl) eq_refl).
  cbn [shuntingYard_loop]. rewrite app_nil_r.
  rewrite (flush_operators_shape _ _ (run_not_LeftParen e [] eq_refl)).
  cbn [app]. rewrite (run_postfix e [] Hg (fun _ => eq_refl)), app_nil_r. reflexivity.
Qed.

(** X9. The parser turns the tokens of every tree grouped as the
    precedences require into its postfix form, and a pair of
    parentheses around the whole changes nothing. *)
Theorem shuntingYard_expr (e : expr) :
  grouped e = true ->
  shuntingYard (tokens_of e) = Return (postfix e)
  /\ shuntingYard (tokens_of (Paren e)) = shuntingYard (tokens_of e).
Proof.
  intro Hg. rewrite (shuntingYard_tokens_of (Paren e) Hg).
  rewrite (shuntingYard_tokens_of e Hg). split; reflexivity.
Qed.

(** ** The evaluator on a postfix expression *)

Section Eval.

Context {libm : Libm}.

Lemma apply_operator_binary (o : string) (x y : float) (stack : list float) :
  supported_op o = true ->
  apply_operator o x y stack =
  match binary o x y with
  | Return v => Return (v :: stack)
  | Throw e => Throw e
  end.
Proof.
  unfold supported_op, apply_operator, binary.
  destruct (o =? "+"); [reflexivity|]. destruct (o =? "-"); [reflexivity|].
  destruct (o =? "*"); [reflexivity|].
  destruct (o =? "/"); [destruct (y =? 0)%float; reflexivity|].
  destruct (o =? "^"); [reflexivity | discriminate].
Qed.

Lemma apply_function_unary (f : string) (x : float) (stack : list float) :
  apply_function f x stack =
  match unary f x with
  | Return v => Return (v :: stack)
  | Throw e => Throw e
  end.
Proof.
  unfold apply_function, unary.
  repeat match goal with |- context [if ?c then _ else _] => destruct c end;
    reflexivity.
Qed.

Lemma solveRPN_loop_postfix (e : expr) :
  supported e = true ->
  forall (rest : list Token) (stack : list float),
  solveRPN_loop (postfix e ++ rest) stack =
  match eval e with
  | Return v => solveRPN_loop rest (v :: stack)
  | Throw x => Throw x
  end.
Proof.
  induction e as [text|e IH|f e IH|o a IHa b IHb]; intros Hs rest stack;
    cbn [postfix eval supported] in *.
  - cbn [app solveRPN_loop]. unfold solveRPN_step. cbn [num type value].
    destruct (stod text); reflexivity.
  - apply IH. exact Hs.
  - rewrite <- app_assoc, (IH Hs). destruct (eval e) as [x|err]; [|reflexivity].
    cbn [app solveRPN_loop bind]. unfold solveRPN_step. cbn [fn type value].
    rewrite apply_function_unary. destruct (unary f x); reflexivity.
  - apply andb_true_iff in Hs as [Hs Hb]. apply andb_true_iff in Hs as [Ho Ha].
    rewrite <- !app_assoc, (IHa Ha). destruct (eval a) as [x|err]; [|reflexivity].
    rewrite (IHb Hb). cbn [bind]. destruct (eval b) as [y|err]; [|reflexivity].
    cbn [app solveRPN_loop bind]. unfold solveRPN_step. cbn [op type value].
    cbn [List.length Nat.ltb Nat.leb].
    rewrite (apply_operator_binary o x y stack Ho).
    destruct (binary o x y); reflexivity.
Qed.

(** X10. On the postfix form of a tree with supported operators the
    evaluator computes the value of the tree, with the errors of the
    operands from left to right. *)
Theorem solveRPN_postfix (e : expr) :
  supported e = true -> solveRPN (postfix e) = eval e.
Proof.
  intro Hs. unfold solveRPN. rewrite <- (app_nil_r (postfix e)).
  rewrite (solveRPN_loop_postfix e Hs). destruct (eval e); reflexivity.
Qed.

End Eval.

(** ** The tokenizer on a printed expression *)

Lemma append_assoc (s1 s2 s3 : string) :
  ((s1 ++ s2) ++ s3)%string = (s1 ++ s2 ++ s3)%string.
Proof. induction s1 as [|c s1 IH]; simpl; [reflexivity | rewrite IH; reflexivity]. Qed.

Lemma tokens_of_last (e : expr) :
  exists init t, tokens_of e = init ++ [t]
                 /\ (type t = Number \/ type t = RightParen).
Proof.
  induction e as [text|e IH|f e IH|o a IHa b IHb]; simpl.
  - exists [], (num text). split; [reflexivity | left; reflexivity].
  - exists (lparen :: tokens_of e), rparen. split; [reflexivity | right; reflexivity].
  - destruct IH as [init [t [-> Ht]]]. exists (fn f :: init), t. split; [reflexivity | exact Ht].
  - destruct IHb as [init [t [-> Ht]]]. exists (tokens_of a ++ op o :: init), t.
    split; [rewrite <- app_assoc; reflexivity | exact Ht].
Qed.

Lemma unary_position_after (tokens : list Token) (e : expr) :
  unary_position (tokens ++ tokens_of e) = false.
Proof.
  destruct (tokens_of_last e) as [init [t [-> Ht]]].
  unfold unary_position. rewrite app_assoc, back_push.
  destruct Ht as [-> | ->]; reflexivity.
Qed.

Lemma unary_position_push (tokens : list Token) (t : Token) :
  type t = LeftParen \/ type t = Operator ->
  unary_position (tokens ++ [t]) = true.
Proof.
  intro Ht. unfold unary_position. rewrite back_push.
  destruct Ht as [-> | ->]; reflexivity.
Qed.

Lemma function_name_not_marker (f : string) :
  function_name f = true ->
  f <> EmptyString /\ all_chars isalpha f = true /\ (f =? "_") = false.
Proof.
  unfold function_name. intro H. apply andb_true_iff in H as [Hne Ha].
  apply negb_true_iff in Hne. apply String.eqb_neq in Hne.
  split; [exact Hne|]. split; [exact Ha|].
  destruct f as [|c f]; [congruence|]. simpl in Ha.
  apply andb_true_iff in Ha as [Hc _]. apply String.eqb_neq.
  exact (word_not_marker c f Hc).
Qed.

Lemma tokenize_from_show (e : expr) :
  forall (tokens : list Token) (rest : string),
  lexical e = true ->
  (starts_minus e = true -> unary_position tokens = true) ->
  starts_delimited rest = true ->
  tokenize_from (show e ++ rest)%string tokens =
  tokenize_from rest (tokens ++ tokens_of e).
Proof.
  induction e as [text|e IH|f e IH|o a IHa b IHb];
    intros tokens rest Hlex Hminus Hrest; cbn [show tokens_of lexical starts_minus] in *.
  - apply andb_true_iff in Hlex as [Hne Hn]. apply negb_true_iff in Hne.
    apply String.eqb_neq in Hne.
    apply tokenize_number; [exact Hne | exact Hn|].
    apply (starts_delimited_stops rest Hrest).
  - cbn [append]. rewrite tokenize_from_equation_2. cbn.
    rewrite append_assoc. cbn [append].
    rewrite IH; [|exact Hlex | intros _; apply unary_position_push; left; reflexivity
                 | reflexivity].
    rewrite tokenize_from_equation_2. cbn.
    rewrite <- !app_assoc. reflexivity.
  - apply andb_true_iff in Hlex as [Hlex Hl]. apply andb_true_iff in Hlex as [Hf Hm].
    apply negb_true_iff in Hm.
    destruct (f =? "_") eqn:Hmarker.
    + apply String.eqb_eq in Hmarker. subst f.
      cbn [append]. rewrite tokenize_from_equation_2. cbn.
      rewrite (Hminus eq_refl).
      rewrite IH; [|exact Hl | rewrite Hm; discriminate | exact Hrest].
      rewrite <- app_assoc. reflexivity.
    + simpl in Hf. destruct (function_name_not_marker f Hf) as [Hne [Ha _]].
      rewrite append_assoc. cbn [append].
      rewrite (tokenize_word f (String " " (show e ++ rest)) tokens Hne Ha eq_refl).
      rewrite tokenize_from_equation_2. cbn.
      rewrite IH; [|exact Hl | rewrite Hm; discriminate | exact Hrest].
      rewrite <- app_assoc. reflexivity.
  - apply andb_true_iff in Hlex as [Hlex Hlb]. apply andb_true_iff in Hlex as [Ho Hla].
    rewrite !append_assoc.
    assert (Hop : exists c, o = String c EmptyString /\ delimiter c = true
                  /\ forall ts s, unary_position ts = false ->
                       tokenize_from (String c s) ts = tokenize_from s (ts ++ [op o])).
    { unfold supported_op in Ho.
      repeat (apply orb_true_iff in Ho as [Ho | Ho]);
        apply String.eqb_eq in Ho; subst o;
        eexists; (split; [reflexivity|]); (split; [reflexivity|]);
        intros ts s Hu; rewrite tokenize_from_equation_2; cbn;
        try rewrite Hu; reflexivity. }
    destruct Hop as [c [-> [Hc Hstep]]]. cbn [append].
    rewrite IHa; [|exact Hla | exact Hminus | exact Hc].
    rewrite (Hstep _ _ (unary_position_after tokens a)).
    rewrite IHb; [|exact Hlb | intros _; apply unary_position_push; right; reflexivity
                  | exact Hrest].
    rewrite <- !app_assoc. reflexivity.
Qed.

(** X11. The tokenizer reads the text of a tree back as the tokens of
    the tree, for every tree that is [lexical]: its numbers are
    nonempty runs of digits and dots, its function names are the
    unary minus or nonempty runs of letters, its operators are among
    [+ - * / ^], and no function name or unary minus is directly
    followed by a ['-'].  In such a tree every ['-'] is read as unary
    or binary as the tree has it. *)
Theorem tokenize_show (e : expr) :
  lexical e = true -> tokenize (show e) = tokens_of e.
Proof.
  intro Hlex. unfold tokenize. rewrite <- (append_empty_r (show e)).
  rewrite (tokenize_from_show e [] "" Hlex (fun _ => eq_refl) eq_refl).
  simp tokenize_from. reflexivity.
Qed.

Lemma lexical_supported (e : expr) : lexical e = true -> supported e = true.
Proof.
  induction e as [text|e IH|f e IH|o a IHa b IHb]; simpl; intro H.
  - reflexivity.
  - exact (IH H).
  - apply andb_true_iff in H as [_ H]. exact (IH H).
  - apply andb_true_iff in H as [H Hb]. apply andb_true_iff in H as [Ho Ha].
    rewrite Ho, (IHa Ha), (IHb Hb). reflexivity.
Qed.

Section EndToEnd.

Context {libm : Libm}.

(** X12. [evaluate] of the text of a tree is the value of the tree, for
    every tree that is [lexical] (numbers, names and operators the
    tokenizer reads back, no function name or unary minus directly
    followed by a ['-']) and grouped as the precedences require. *)
Theorem evaluate_show (e : expr) :
  lexical e = true -> grouped e = true -> evaluate (show e) = eval e.
Proof.
  intros Hlex Hg. unfold evaluate, tokenize.
  rewrite <- (append_empty_r (show e)).
  rewrite (tokenize_from_show e [] "" Hlex (fun _ => eq_refl) eq_refl).
  simp tokenize_from. cbn [app].
  rewrite (shuntingYard_tokens_of e Hg). cbn [bind]. unfold solveRPN.
  rewrite <- (app_nil_r (postfix e)).
  rewrite (solveRPN_loop_postfix e (lexical_supported e Hlex)).
  destruct (eval e); reflexivity.
Qed.

End EndToEnd.

(** ** A minus after a function name or another minus *)

(** The output only grows. *)
Lemma pop_operators_output (token : Token) (operators output : list Token) :
  exists moved, snd (pop_operators token operators output) = output ++ moved.
Proof.
  revert output. induction operators as [|top below IH]; intro output; simpl.
  - exists []. rewrite app_nil_r. reflexivity.
  - destruct (TokenType_eqb (type top) LeftParen);
      [exists []; rewrite app_nil_r; reflexivity|].
    destruct (_ || _); [|exists []; rewrite app_nil_r; reflexivity].
    destruct (IH (output ++ [top])) as [moved H]. exists (top :: moved).
    rewrite H, <- app_assoc. reflexivity.
Qed.

Lemma pop_until_LeftParen_output (operators output : list Token) :
  exists moved, snd (pop_until_LeftParen operators output) = output ++ moved.
Proof.
  revert output. induction operators as [|top below IH]; intro output; simpl.
  - exists []. rewrite app_nil_r. reflexivity.
  - destruct (TokenType_eqb (type top) LeftParen);
      [exists []; rewrite app_nil_r; reflexivity|].
    destruct (IH (output ++ [top])) as [moved H]. exists (top :: moved).
    rewrite H, <- app_assoc. reflexivity.
Qed.

Lemma shuntingYard_step_output
  (token : Token) (operators output operators' output' : list Token) :
  shuntingYard_step token operators output = Return (operators', output') ->
  exists moved, output' = output ++ moved.
Proof.
  unfold shuntingYard_step. destruct (type token).
  - intro E. injection E as <- <-. exists [token]. reflexivity.
  - destruct (pop_operators_output token operators output) as [moved H].
    destruct (pop_operators token operators output) as [ops out]. simpl in H.
    intro E. injection E as <- <-. exists moved. exact H.
  - intro E. injection E as <- <-. exists []. rewrite app_nil_r. reflexivity.
  - intro E. injection E as <- <-. exists []. rewrite app_nil_r. reflexivity.
  - unfold close_paren.
    destruct (pop_until_LeftParen_output operators output) as [moved H].
    destruct (pop_until_LeftParen operators output) as [ops out]. simpl in H.
    destruct ops as [|lp ops]; [discriminate|].
    destruct ops as [|top below].
    + intro E. injection E as <- <-. exists moved. exact H.
    + destruct (TokenType_eqb (type top) Function); intro E; injection E as <- <-.
      * exists (moved ++ [top]). rewrite H, <- app_assoc. reflexivity.
      * exists moved. exact H.
Qed.

Lemma flush_operators_output (operators output rpn : list Token) :
  flush_operators operators output = Return rpn ->
  exists moved, rpn = output ++ moved.
Proof.
  revert output. induction operators as [|top below IH]; intro output; simpl.
  - intro E. injection E as <-. exists []. rewrite app_nil_r. reflexivity.
  - destruct (TokenType_eqb (type top) LeftParen); [discriminate|].
    intro E. destruct (IH _ E) as [moved H]. exists (top :: moved).
    rewrite H, <- app_assoc. reflexivity.
Qed.

Lemma shuntingYard_loop_output (tokens operators output rpn : list Token) :
  shuntingYard_loop tokens operators output = Return rpn ->
  exists moved, rpn = output ++ moved.
Proof.
  revert operators output.
  induction tokens as [|token tokens IH]; intros operators output;
    cbn [shuntingYard_loop].
  - apply flush_operators_output.
  - destruct (shuntingYard_step token operators output) as [[ops out]|e] eqn:Hs;
      [|discriminate].
    intro E. destruct (IH _ _ E) as [moved H].
    destruct (shuntingYard_step_output _ _ _ _ _ Hs) as [moved' H'].
    exists (moved' ++ moved). rewrite H, H', <- app_assoc. reflexivity.
Qed.

Lemma paren_depth_app (tokens1 tokens2 : list Token) (depth : nat) :
  paren_depth (tokens1 ++ tokens2) depth =
  match paren_depth tokens1 depth with
  | Some d => paren_depth tokens2 d
  | None => None
  end.
Proof.
  revert depth. induction tokens1 as [|t tokens1 IH]; intro depth; simpl.
  - reflexivity.
  - destruct (type t); try apply IH.
    destruct depth; [reflexivity | apply IH].
Qed.

(** The parentheses of a tree are balanced. *)
Lemma paren_depth_tokens_of (e : expr) (depth : nat) :
  paren_depth (tokens_of e) depth = Some depth.
Proof.
  revert depth. induction e as [text|e IH|f e IH|o a IHa b IHb]; intro depth.
  - reflexivity.
  - cbn [tokens_of paren_depth lparen type]. rewrite paren_depth_app, IH.
    reflexivity.
  - cbn [tokens_of paren_depth fn type]. apply IH.
  - cbn [tokens_of]. rewrite paren_depth_app, IHa.
    cbn [paren_depth op type]. apply IHb.
Qed.

Lemma tokenize_minus_after_prefix (f : string) (e : expr) :
  lexical e = true -> f = "_" \/ function_name f = true ->
  tokenize (show (Prefix f (Prefix "_" e))) = fn f :: op "-" :: tokens_of e.
Proof.
  intros Hlex Hf. unfold tokenize.
  assert (Hrest : forall tokens,
            tokenize_from (String "-" (show e)) (tokens ++ [fn f]) =
            (tokens ++ [fn f]) ++ op "-" :: tokens_of e).
  { intro tokens. rewrite tokenize_from_equation_2. cbn.
    unfold unary_position. rewrite back_push. cbn.
    pose proof (tokenize_from_show e ((tokens ++ [fn f]) ++ [op "-"]) "" Hlex) as H.
    rewrite append_empty_r in H. unfold fn, op in *. rewrite H.
    - simp tokenize_from. rewrite <- !app_assoc. reflexivity.
    - intros _. apply unary_position_push. right. reflexivity.
    - reflexivity. }
  cbn [show]. destruct (f =? "_") eqn:Hmarker.
  - apply String.eqb_eq in Hmarker. subst f. cbn [String.eqb Ascii.eqb Bool.eqb append].
    rewrite tokenize_from_equation_2. cbn.
    exact (Hrest []).
  - destruct Hf as [-> | Hf]; [discriminate Hmarker|].
    destruct (function_name_not_marker f Hf) as [Hne [Ha _]].
    cbn [String.eqb Ascii.eqb Bool.eqb append].
    rewrite (tokenize_word f (String " " (String "-" (show e))) [] Hne Ha eq_refl).
    rewrite tokenize_from_equation_2. cbn.
    exact (Hrest []).
Qed.

Section MinusAfterPrefix.

Context {libm : Libm}.

(** X14. A ['-'] directly after a function name or after a unary minus
    is read as the binary operator: for every lexical tree [e] and
    every function name or unary minus [f], the text of [f] applied
    to minus [e] gives the tokens [f], operator ["-"], then those of
    [e], and [evaluate] throws "Invalid function call". *)
Theorem minus_after_prefix (f : string) (e : expr) :
  lexical e = true -> f = "_" \/ function_name f = true ->
  tokenize (show (Prefix f (Prefix "_" e))) = fn f :: op "-" :: tokens_of e
  /\ evaluate (show (Prefix f (Prefix "_" e))) =
       Throw (runtime_error "Invalid function call").
Proof.
  intros Hlex Hf.
  pose proof (tokenize_minus_after_prefix f e Hlex Hf) as Htok.
  split; [exact Htok|]. unfold evaluate. rewrite Htok.
  unfold shuntingYard. cbn [shuntingYard_loop]. unfold shuntingYard_step at 1.
  cbn [fn type]. unfold shuntingYard_step at 1.
  cbn [op fn type value pop_operators TokenType_eqb orb app].
  change (mkToken Operator "-") with (op "-").
  change (mkToken Function f) with (fn f).
  pose proof (shuntingYard_loop_spec (tokens_of e) [op "-"] [fn f]) as Hspec.
  destruct (shuntingYard_loop (tokens_of e) [op "-"] [fn f]) as [rpn|err] eqn:Hloop.
  - destruct (shuntingYard_loop_output _ _ _ _ Hloop) as [moved ->].
    reflexivity.
  - destruct Hspec as [_ Hn]. exfalso. apply Hn.
    apply paren_depth_tokens_of.
Qed.

End MinusAfterPrefix.

(** ** Characters without an operation *)

Section Unsupported.

Context {libm : Libm}.

(** X13. Between two literals an operator character other than [+ - * /
    ^] is read as an operator, but there is no rule for it: once
    both literals are converted, the expression fails with "Invalid
    expression". *)
Theorem evaluate_unsupported_operator (a b : string) (c : ascii) :
  a <> EmptyString -> all_chars isnumchar a = true ->
  b <> EmptyString -> all_chars isnumchar b = true ->
  operator_char c = true -> supported_op (String c EmptyString) = false ->
  tokenize (a ++ String c b) = [num a; op (String c EmptyString); num b]
  /\ evaluate (a ++ String c b) =
       (x <- stod a ;; y <- stod b ;; Throw (runtime_error "Invalid expression")).
Proof.
  intros Hna Ha Hnb Hb Hc Hs.
  assert (Hcls : isspace c = false /\ isnumchar c = false /\ isalpha c = false
                 /\ (c =? "(")%char = false /\ (c =? ")")%char = false).
  { unfold operator_char in Hc. apply negb_true_iff in Hc.
    apply orb_false_iff in Hc as [Hc H5]. apply orb_false_iff in Hc as [Hc H4].
    apply orb_false_iff in Hc as [Hc H3]. apply orb_false_iff in Hc as [H1 H2].
    repeat split; assumption. }
  destruct Hcls as [Hsp [Hn [Hal [Hl Hr]]]].
  assert (Hminus : (c =? "-")%char = false).
  { destruct (Ascii.eqb_spec c "-") as [-> | _]; [discriminate Hs | reflexivity]. }
  assert (Htok : tokenize (a ++ String c b) = [num a; op (String c EmptyString); num b]).
  { unfold tokenize.
    rewrite (tokenize_number a (String c b) [] Hna Ha);
      [|simpl; rewrite Hn; reflexivity].
    rewrite tokenize_from_equation_2. unfold isnumchar in Hn.
    rewrite Hsp, Hn, Hal, Hl, Hr, Hminus.
    pose proof (fun ts => tokenize_number b "" ts Hnb Hb eq_refl) as Hb'.
    rewrite append_empty_r in Hb'. rewrite Hb'. simp tokenize_from. reflexivity. }
  split; [exact Htok|].
  unfold evaluate. rewrite Htok.
  change (shuntingYard [num a; op (String c EmptyString); num b])
    with (Return [num a; num b; op (String c EmptyString)]).
  cbn [bind]. unfold solveRPN. cbn [solveRPN_loop].
  unfold solveRPN_step. cbn [num op type value bind].
  destruct (stod a) as [x|e]; [|reflexivity]. cbn [bind].
  destruct (stod b) as [y|e]; [|reflexivity]. cbn [bind].
  cbn [List.length Nat.ltb Nat.leb].
  unfold apply_operator. unfold supported_op in Hs.
  apply orb_false_iff in Hs as [Hs H5]. apply orb_false_iff in Hs as [Hs H4].
  apply orb_false_iff in Hs as [Hs H3]. apply orb_false_iff in Hs as [H1 H2].
  rewrite H1, H2, H3, H4, H5. reflexivity.
Qed.

End Unsupported.

(** ** The further properties on concrete inputs *)

(** X1, witness: the operator of 1+2. *)
Lemma tokenize_token_shape_witness :
  In (op "+") (tokenize "1+2") /\ token_shape (op "+").
Proof.
  assert (H : In (op "+") (tokenize "1+2"))
    by (vm_compute; right; left; reflexivity).
  split; [exact H | exact (tokenize_token_shape "1+2" (op "+") H)].
Defined.

(** X3, witness: the space of "1 2" separates two numbers. *)
Lemma tokenize_white_space_witness :
  all_chars isspace " " = true
  /\ tokenize "1 2" = tokenize_from "2" (tokenize "1").
Proof.
  split; [reflexivity|].
  destruct (tokenize_white_space "1" " " "2" eq_refl) as [_ [_ H]].
  apply H. discriminate.
Defined.

(** X4, witness: the literal 12 before +3. *)
Lemma number_literal_witness :
  (all_chars isnumchar "12" = true /\ stops isnumchar "+3" = true)
  /\ tokenize_from "12+3" [] = tokenize_from "+3" [num "12"]
  /\ @evaluate small_libm "12" = stod "12".
Proof.
  split; [split; reflexivity|].
  apply (@number_literal small_libm "12" "+3" []);
    solve [discriminate | reflexivity].
Defined.

(** X5, witness: 1.5.2 evaluates as 1.5. *)
Lemma evaluate_second_dot_witness :
  (all_chars isdigit "1" = true /\ all_chars isdigit "5" = true
   /\ all_chars isnumchar "2" = true)
  /\ @evaluate small_libm "1.5.2" = @evaluate small_libm "1.5".
Proof.
  split; [repeat split; reflexivity|].
  apply (@evaluate_second_dot small_libm "1" "5" "2"); reflexivity.
Defined.

(** X6, witness: the tokens of (1+2)*3. *)
Lemma shuntingYard_permutation_witness :
  shuntingYard (tokenize "(1+2)*3") =
    Return [num "1"; num "2"; op "+"; num "3"; op "*"]
  /\ Permutation [num "1"; num "2"; op "+"; num "3"; op "*"]
       (filter not_paren (tokenize "(1+2)*3")).
Proof.
  assert (H : shuntingYard (tokenize "(1+2)*3") =
              Return [num "1"; num "2"; op "+"; num "3"; op "*"])
    by (vm_compute; reflexivity).
  split; [exact H | exact (proj1 (shuntingYard_permutation _ _ H))].
Defined.

(** X7, witness: the numbers of 1+2*3. *)
Lemma shuntingYard_numbers_in_order_witness :
  shuntingYard (tokenize "1+2*3") =
    Return [num "1"; num "2"; num "3"; op "*"; op "+"]
  /\ filter is_Number [num "1"; num "2"; num "3"; op "*"; op "+"] =
     filter is_Number (tokenize "1+2*3").
Proof.
  assert (H : shuntingYard (tokenize "1+2*3") =
              Return [num "1"; num "2"; num "3"; op "*"; op "+"])
    by (vm_compute; reflexivity).
  split; [exact H | exact (shuntingYard_numbers_in_order _ _ H)].
Defined.

(** X9, witness: the tokens of the sample. *)
Lemma shuntingYard_expr_witness :
  grouped sample = true
  /\ shuntingYard (tokens_of sample) = Return (postfix sample).
Proof.
  split; [reflexivity|]. apply (shuntingYard_expr sample). reflexivity.
Defined.

(** X10, witness: the postfix form of the sample. *)
Lemma solveRPN_postfix_witness :
  supported sample = true
  /\ @solveRPN small_libm (postfix sample) = @eval small_libm sample.
Proof.
  split; [reflexivity|]. apply (@solveRPN_postfix small_libm sample). reflexivity.
Defined.

(** X11, witness: the text of the sample. *)
Lemma tokenize_show_witness :
  lexical sample = true
  /\ show sample = "2+3*-(4.5-sqrt 16)"
  /\ tokenize "2+3*-(4.5-sqrt 16)" = tokens_of sample.
Proof.
  split; [reflexivity|]. split; [reflexivity|].
  apply (tokenize_show sample). reflexivity.
Defined.

(** X12, witness: the sample evaluates to its value, 0.5. *)
Lemma evaluate_show_witness :
  (lexical sample = true /\ grouped sample = true)
  /\ @evaluate small_libm "2+3*-(4.5-sqrt 16)" = @eval small_libm sample
  /\ @eval small_libm sample = Return 0.5%float.
Proof.
  split; [split; reflexivity|].
  split; [apply (@evaluate_show small_libm sample); reflexivity|].
  vm_compute. reflexivity.
Defined.

(** X13, witness: 7&4, with a character that has no operation. *)
Lemma evaluate_unsupported_operator_witness :
  (operator_char "&" = true /\ supported_op "&" = false)
  /\ @evaluate small_libm "7&4" = Throw (runtime_error "Invalid expression").
Proof.
  split; [split; reflexivity|].
  exact (proj2 (@evaluate_unsupported_operator small_libm "7" "4" "&"%char
                  ltac:(discriminate) eq_refl ltac:(discriminate) eq_refl
                  eq_refl eq_refl)).
Defined.

(** X14, witness: the text --2. *)
Lemma minus_after_prefix_witness :
  (lexical (Num "2") = true /\ show (Prefix "_" (Prefix "_" (Num "2"))) = "--2")
  /\ tokenize "--2" = [fn "_"; op "-"; num "2"]
  /\ @evaluate small_libm "--2" = Throw (runtime_error "Invalid function call").
Proof.
  split; [split; reflexivity|].
  apply (@minus_after_prefix small_libm "_" (Num "2")); [reflexivity | left; reflexivity].
Defined.
